(** * Zero storage manager: consolidation array status words, swizzled
      pointers, and the fixable page handle.

    Sources embedded here:
    - [src/sm/log_carray.h]      (ConsolidationArray status arithmetic)
    - [src/sm/bf_tree.h]         (is_swizzled_pointer, bf_key, bf_tree_m interface)
    - [src/sm/fixable_page_h.cpp] (fixable_page_h member functions)
*)

From Stdlib Require Import ZArith Lia Bool.
From stdpp Require Import base option list gmap.

Local Open Scope Z_scope.

(** ** Fixed-width integers

    C++ integer types are carried as [Z] together with the reduction that
    a store into the type performs.  Signed overflow is reduced by two's
    complement wrap-around, which is what the targeted compilers emit for
    [int64_t] additions. *)

Definition INT64_MAX : Z := 2 ^ 63 - 1.
Definition INT32_MAX : Z := 2 ^ 31 - 1.

Definition is_int64 (z : Z) : Prop := - 2 ^ 63 <= z <= INT64_MAX.
Definition is_int32 (z : Z) : Prop := - 2 ^ 31 <= z <= INT32_MAX.
Definition is_uint32 (z : Z) : Prop := 0 <= z < 2 ^ 32.

Definition wrap_int64 (z : Z) : Z := (z + 2 ^ 63) mod 2 ^ 64 - 2 ^ 63.
Definition wrap_int32 (z : Z) : Z := (z + 2 ^ 31) mod 2 ^ 32 - 2 ^ 31.
Definition wrap_uint64 (z : Z) : Z := z mod 2 ^ 64.

(** ** log_carray.h *)

Module ConsolidationArray.

(** [typedef int64_t carray_status_t;] *)
Definition carray_status_t := Z.

(** [enum Constants]. *)
Definition ALL_SLOT_COUNT : Z := 256.
Definition ACTIVE_SLOT_COUNT : Z := 5.
Definition SLOT_AVAILABLE : Z := 0.
Definition SLOT_UNUSED : Z := -1.
Definition SLOT_PENDING : Z := -2.
Definition SLOT_FINISHED : Z := -4.

(** [const carray_status_t THREAD_INCREMENT = 1L << 32;] *)
Definition THREAD_INCREMENT : carray_status_t := wrap_int64 (Z.shiftl 1 32).

(** [return current_status + log_size + THREAD_INCREMENT;]
    The [int32_t] argument is promoted to [int64_t]; each addition is
    an [int64_t] addition. *)
Definition join_carray_status (current_status : carray_status_t) (log_size : Z)
  : carray_status_t :=
  wrap_int64 (wrap_int64 (current_status + log_size) + THREAD_INCREMENT).

(** [const carray_status_t THREAD_MASK = 0xFFFF;] *)
Definition THREAD_MASK : carray_status_t := 0xFFFF.

(** [return current_status & THREAD_MASK;] converted to the [int32_t]
    return type. *)
Definition extract_carray_log_size (current_status : carray_status_t) : Z :=
  wrap_int32 (Z.land current_status THREAD_MASK).

(** The two fields of a status word as the comment on [carray_status_t]
    describes them: "The high 32 bits represent the number of threads
    joining the group.  The low 32 bits represent the total number of
    bytes of the logs in the group." *)
Definition status_thread_count (s : carray_status_t) : Z := Z.shiftr s 32.
Definition status_total_bytes (s : carray_status_t) : Z := Z.land s (Z.ones 32).

End ConsolidationArray.

(** ** bf_tree.h: pointer helpers *)

(** [const uint32_t SWIZZLED_PID_BIT = 0x80000000;] *)
Definition SWIZZLED_PID_BIT : Z := 0x80000000.

(** [return (shpid & SWIZZLED_PID_BIT) != 0;] *)
Definition is_swizzled_pointer (shpid : Z) : bool :=
  negb (Z.land shpid SWIZZLED_PID_BIT =? 0).

(** [return ((uint64_t) vid << 32) + shpid;]
    Both the shift and the addition are [uint64_t] operations. *)
Definition bf_key (vid shpid : Z) : Z :=
  wrap_uint64 (wrap_uint64 (Z.shiftl (wrap_uint64 vid) 32) + shpid).

(** ** Shared vocabulary of the storage manager *)

(** Modelled from the spec: [latch_mode_t] is declared in [latch.h],
    which is not among the sources.  The four modes are the ones that
    [fixable_page_h.cpp] names; section 4.1 describes SH, EX and Q. *)
Inductive latch_mode_t := LATCH_NL | LATCH_Q | LATCH_SH | LATCH_EX.

#[global] Instance latch_mode_t_eq_dec : EqDecision latch_mode_t.
Proof. solve_decision. Defined.

(** Modelled from the spec: the error codes are declared in a header
    that is not among the sources.  The first four are named in the
    sources; the last three are the conditional-acquire failure of
    section 4.1 and the kinds [OutOfBuffer] and [IOError] of the error
    table of section 7, raised only inside the buffer pool. *)
Inductive w_error_codes :=
| eLATCHQFAIL
| ePARENTLATCHQFAIL
| eBF_DIRECTFIX_SWIZZLED_PTR
| eOUTOFLOGSPACE
| LatchTryFailure
| OutOfBuffer
| IOError.

#[global] Instance w_error_codes_eq_dec : EqDecision w_error_codes.
Proof. solve_decision. Defined.

(** [w_rc_t]: either [RCOK] or [RC(e)]. *)
Inductive w_rc_t := RCOK | RC (e : w_error_codes).

#[global] Instance w_rc_t_eq_dec : EqDecision w_rc_t.
Proof. solve_decision. Defined.

Definition is_error (rc : w_rc_t) : bool :=
  match rc with RCOK => false | RC _ => true end.

(** Frame indices; a [generic_page*] into the pool's frame array is
    carried as [option bf_idx], [None] being [NULL]. *)
Abbreviation bf_idx := nat.

(** Modelled from the spec: [generic_page] is declared in
    [generic_page.h], which is not among the sources.  Of the header
    "{vol-id, page-id, store-id, page-LSN, tag, flags}" (section 3) the
    flags word is the part that [fixable_page_h.cpp] reads and writes. *)
Record generic_page := { page_flags : Z }.

Definition set_page_flags (f : Z -> Z) (p : generic_page) : generic_page :=
  {| page_flags := f (page_flags p) |}.

(** Modelled from the spec: log records are declared outside the
    sources; the one kind written through [fixable_page_h.cpp] names the
    page it is about. *)
Inductive logrec_t := t_page_set_to_be_deleted (page : option bf_idx).

(** ** Latch *)

(** Modelled from the spec: [latch.h] is not among the sources.  Section
    4.1: any number of SH holders, one EX holder, Q blocks nobody and is
    checked afterwards through a ticket; the design notes: "the ticket
    should hold the latch's version word at acquire time; validation
    compares against the current version".  The version word moves on
    every EX acquisition and release. *)
Record latch_t := {
  latch_holder : latch_mode_t;
  latch_cnt : nat;
  latch_version : Z
}.

(** Modelled from the spec: latch acquisition after section 4.1 ("SH:
    any number of concurrent SH holders; blocks EX.  EX: exclusive; blocks
    SH, EX, and invalidates outstanding Q tickets").  [None]: the request
    conflicts with the current holders. *)
Definition latch_acquire (mode : latch_mode_t) (l : latch_t) : option latch_t :=
  match mode, latch_holder l with
  | LATCH_SH, LATCH_EX => None
  | LATCH_SH, LATCH_SH =>
      Some {| latch_holder := LATCH_SH; latch_cnt := S (latch_cnt l);
              latch_version := latch_version l |}
  | LATCH_SH, _ =>
      Some {| latch_holder := LATCH_SH; latch_cnt := 1%nat;
              latch_version := latch_version l |}
  | LATCH_EX, (LATCH_SH | LATCH_EX) => None
  | LATCH_EX, _ =>
      Some {| latch_holder := LATCH_EX; latch_cnt := 1%nat;
              latch_version := latch_version l + 1 |}
  | _, _ => Some l
  end.

(** Modelled from the spec: latch release, the converse of
    [latch_acquire]; the release of an EX latch moves the version word
    once more. *)
Definition latch_release (l : latch_t) : latch_t :=
  match latch_holder l with
  | LATCH_EX =>
      {| latch_holder := LATCH_NL; latch_cnt := 0%nat;
         latch_version := latch_version l + 1 |}
  | LATCH_SH =>
      match latch_cnt l with
      | S (S n) => {| latch_holder := LATCH_SH; latch_cnt := S n;
                      latch_version := latch_version l |}
      | _ => {| latch_holder := LATCH_NL; latch_cnt := 0%nat;
                latch_version := latch_version l |}
      end
  | _ => l
  end.

(** Modelled from the spec: ticket validation, "validation compares
    against the current version" (section 9).  A Q ticket is good while
    no writer holds the latch and the version word still is the one the
    ticket recorded. *)
Definition q_ticket_valid (l : latch_t) (ticket : Z) : bool :=
  negb (bool_decide (latch_holder l = LATCH_EX)) && (latch_version l =? ticket).

(** ** Control block *)

(** Modelled from the spec: [bf_tree_cb_t] is declared in
    [bf_tree_cb.h], which is not among the sources.  These are the fields
    of section 3 that the fix paths use. *)
Record bf_tree_cb_t := {
  _used : bool;
  _dirty : bool;
  _pin_cnt : Z;
  _pid_vol : Z;
  _pid_shpid : Z;
  _rec_lsn : Z;
  _latch : latch_t
}.

Definition cb_set_latch (l : latch_t) (cb : bf_tree_cb_t) : bf_tree_cb_t :=
  {| _used := _used cb; _dirty := _dirty cb; _pin_cnt := _pin_cnt cb;
     _pid_vol := _pid_vol cb; _pid_shpid := _pid_shpid cb;
     _rec_lsn := _rec_lsn cb; _latch := l |}.

Definition cb_add_pin (d : Z) (cb : bf_tree_cb_t) : bf_tree_cb_t :=
  {| _used := _used cb; _dirty := _dirty cb; _pin_cnt := _pin_cnt cb + d;
     _pid_vol := _pid_vol cb; _pid_shpid := _pid_shpid cb;
     _rec_lsn := _rec_lsn cb; _latch := _latch cb |}.

Definition cb_mark_dirty (lsn : Z) (cb : bf_tree_cb_t) : bf_tree_cb_t :=
  {| _used := _used cb; _dirty := true; _pin_cnt := _pin_cnt cb;
     _pid_vol := _pid_vol cb; _pid_shpid := _pid_shpid cb;
     _rec_lsn := if _rec_lsn cb =? 0 then lsn else _rec_lsn cb;
     _latch := _latch cb |}.

(** ** bf_tree_m

    [bf_tree.h] declares the buffer pool; its member functions are defined
    in files that are not among the sources.  The definitions of this
    module follow the documentation comments of [bf_tree.h] and sections
    3, 4.2 and 4.3 of the specification. *)

Module bf_tree_m.

(** Modelled from the spec: the data members of [bf_tree_m] after
    sections 2 and 3.  The frame array with its control blocks, the hash
    index on [bf_key], the free list, and the page images of the mounted
    volumes (the Volume collaborator's [read_page]) by [bf_key]. *)
Record pool := {
  _control_blocks : list bf_tree_cb_t;
  _buffer : list generic_page;
  _hashtable : gmap Z bf_idx;
  _freelist : list bf_idx;
  _volumes : gmap Z generic_page
}.

Definition with_cbs (f : list bf_tree_cb_t -> list bf_tree_cb_t) (b : pool) : pool :=
  {| _control_blocks := f (_control_blocks b); _buffer := _buffer b;
     _hashtable := _hashtable b; _freelist := _freelist b;
     _volumes := _volumes b |}.

Definition with_buffer (f : list generic_page -> list generic_page) (b : pool) : pool :=
  {| _control_blocks := _control_blocks b; _buffer := f (_buffer b);
     _hashtable := _hashtable b; _freelist := _freelist b;
     _volumes := _volumes b |}.

(** Modelled from the spec: [get_cb] on a page pointer, "returns the
    control block corresponding to the given bufferpool page"
    (bf_tree.h). *)
Definition get_cb (b : pool) (page : option bf_idx) : option bf_tree_cb_t :=
  idx ← page; _control_blocks b !! idx.

(** Modelled from the spec: the body of [bf_tree_m::unfix] is missing.
    "Release the latch on the page." (bf_tree.h); "Every successful fix
    increments it; unfix decrements it" (section 4.3, pin counts). *)
Definition unfix (p : option bf_idx) (b : pool) : pool :=
  match p with
  | None => b
  | Some idx =>
      with_cbs (alter (fun cb => cb_add_pin (-1) (cb_set_latch (latch_release (_latch cb)) cb)) idx) b
  end.

(** Modelled from the spec: the body of [bf_tree_m::set_dirty] is
    missing.  "[set_dirty(p)] sets the flag; the first dirtying also
    establishes [rec_lsn] to the current log position if not yet set"
    (section 4.3). *)
Definition set_dirty (curr_lsn : Z) (p : option bf_idx) (b : pool) : pool :=
  match p with
  | None => b
  | Some idx => with_cbs (alter (cb_mark_dirty curr_lsn) idx) b
  end.

(** Modelled from the spec: latching a resident frame and taking a pin
    on it, the last step of every fix ("latch and return", "Every
    successful fix increments it", section 4.3; "[conditional=true] means
    return fail immediately on any latch contention").  The result is
    [None] when the call does not come back: it waits for a latch, or the
    index lies outside the frame array. *)
Definition latch_frame (idx : bf_idx) (mode : latch_mode_t) (conditional : bool)
    (page : option bf_idx) (b : pool) : option (w_rc_t * option bf_idx * pool) :=
  cb ← _control_blocks b !! idx;
  match latch_acquire mode (_latch cb) with
  | Some l =>
      Some (RCOK, Some idx,
            with_cbs (<[idx := cb_add_pin 1 (cb_set_latch l cb)]>) b)
  | None =>
      if conditional then Some (RC LatchTryFailure, page, b) else None
  end.

(** Modelled from the spec: hash index lookup; "lookups that find a CB
    with [pin_cnt = -1] treat it as absent" (section 4.3). *)
Definition lookup_frame (key : Z) (b : pool) : option bf_idx :=
  idx ← _hashtable b !! key;
  cb ← _control_blocks b !! idx;
  if _pin_cnt cb <? 0 then None else Some idx.

(** Modelled from the spec: the image of a virgin page, which "doesn't
    have to be read from disk" (bf_tree.h). *)
Definition virgin_image : generic_page := {| page_flags := 0 |}.

(** Modelled from the spec: the body of [_fix_nonswizzled] is missing.
    "look up in the hash index; on hit, latch and return; on miss,
    acquire a free frame, read from disk (skip read if virgin), ...
    install in hashtable, latch and return" (section 4.3).  The eviction
    engine is not part of this development: an empty free list is
    reported as [OutOfBuffer], the error that eviction gives when it
    frees nothing. *)
Definition _fix_nonswizzled (page : option bf_idx) (vol shpid : Z)
    (mode : latch_mode_t) (conditional virgin_page : bool) (b : pool)
    : option (w_rc_t * option bf_idx * pool) :=
  let key := bf_key vol shpid in
  match lookup_frame key b with
  | Some idx => latch_frame idx mode conditional page b
  | None =>
      match _freelist b with
      | [] => Some (RC OutOfBuffer, page, b)
      | idx :: rest =>
          match (if virgin_page then Some virgin_image else _volumes b !! key) with
          | None => Some (RC IOError, page, b)
          | Some image =>
              old ← _control_blocks b !! idx;
              let cb := {| _used := true; _dirty := false; _pin_cnt := 0;
                           _pid_vol := vol; _pid_shpid := shpid;
                           _rec_lsn := 0; _latch := _latch old |} in
              latch_frame idx mode conditional page
                {| _control_blocks := <[idx := cb]> (_control_blocks b);
                   _buffer := <[idx := image]> (_buffer b);
                   _hashtable := <[key := idx]> (_hashtable b);
                   _freelist := rest;
                   _volumes := _volumes b |}
          end
      end
  end.

(** Modelled from the spec: the body of [bf_tree_m::fix_direct] is
    missing.  "If the shpid looks like a swizzled pointer, this method
    returns an error eBF_DIRECTFIX_SWIZZLED_PTR" (bf_tree.h); otherwise
    the frame is found or loaded without a parent. *)
Definition fix_direct (page : option bf_idx) (vol shpid : Z)
    (mode : latch_mode_t) (conditional virgin_page : bool) (b : pool)
    : option (w_rc_t * option bf_idx * pool) :=
  if is_swizzled_pointer shpid then
    Some (RC eBF_DIRECTFIX_SWIZZLED_PTR, page, b)
  else _fix_nonswizzled page vol shpid mode conditional virgin_page b.

(** Modelled from the spec: the frame a swizzled pointer designates,
    "once set, the low bits are a frame index" (section 3). *)
Definition swizzled_frame (shpid : Z) : bf_idx :=
  Z.to_nat (Z.lxor shpid SWIZZLED_PID_BIT).

(** Modelled from the spec: the body of [bf_tree_m::fix_nonroot] is
    missing.  "If [shpid] is already a swizzled frame-index, treat it as
    a direct frame reference; latch and return.  Otherwise, look up in
    the hash index ..." (section 4.3).  The rewriting of the parent's
    slot into a swizzled pointer changes the parent's child slots only,
    which no page image of this development carries. *)
Definition fix_nonroot (page parent : option bf_idx) (vol shpid : Z)
    (mode : latch_mode_t) (conditional virgin_page : bool) (b : pool)
    : option (w_rc_t * option bf_idx * pool) :=
  if is_swizzled_pointer shpid then
    latch_frame (swizzled_frame shpid) mode conditional page b
  else _fix_nonswizzled page vol shpid mode conditional virgin_page b.

(** Modelled from the spec: [fix_with_Q_nonroot] is called by
    [fixable_page_h::fix_nonroot] and defined in a file that is not
    among the sources.  "fix a swizzled pointer optimistically in Q
    mode; the caller must later validate the Q ticket" (section 4.3):
    no latch is taken and no pin is added, the ticket is the version
    word of the frame's latch.  The result is the return code, the page
    and the ticket. *)
Definition fix_with_Q_nonroot (page : option bf_idx) (vol shpid : Z)
    (ticket : Z) (b : pool) : option (w_rc_t * option bf_idx * Z) :=
  cb ← _control_blocks b !! swizzled_frame shpid;
  Some (RCOK, Some (swizzled_frame shpid), latch_version (_latch cb)).

(** Hash index, control blocks and free list agree: every entry of the
    index leads to a control block that carries the entry's key, built
    from a 32-bit volume id and a 32-bit page id, and to a frame that is
    not on the free list ("No frame appears simultaneously on the free
    list and in the hashtable", section 8); free frames lie inside the
    frame array, each once. *)
Definition consistent (b : pool) : Prop :=
(forall key idx, _hashtable b !! key = Some idx ->
   exists cb, _control_blocks b !! idx = Some cb
              /\ bf_key (_pid_vol cb) (_pid_shpid cb) = key
              /\ is_uint32 (_pid_vol cb) /\ is_uint32 (_pid_shpid cb)
              /\ idx ∉ _freelist b)
/\ (forall idx, idx ∈ _freelist b -> (idx < length (_control_blocks b))%nat)
/\ NoDup (_freelist b).

End bf_tree_m.

(** ** The storage manager state seen by a page handle *)

(** Modelled from the spec: the globals that [fixable_page_h.cpp]
    reaches: [smlevel_0::bf], the log behind
    [log_page_set_to_be_deleted] with the room left in it, and the static
    [fixable_page_h::force_Q_fixing]. *)
Record smlevel_0 := {
  bf : bf_tree_m.pool;
  log : list logrec_t;
  log_space : nat;
  force_Q_fixing : Z
}.

Definition with_bf (f : bf_tree_m.pool -> bf_tree_m.pool) (s : smlevel_0) : smlevel_0 :=
  {| bf := f (bf s); log := log s; log_space := log_space s;
     force_Q_fixing := force_Q_fixing s |}.

(** Modelled from the spec: "the current log position" (section 4.3),
    one past the records written so far. *)
Definition curr_lsn (s : smlevel_0) : Z := Z.of_nat (length (log s)) + 1.

(** Modelled from the spec: [log_page_set_to_be_deleted] is generated
    logging code that is not among the sources.  It appends one record for
    the page of the handle, or reports [OutOfLogSpace] ("leader cannot
    reserve bytes", section 7) and appends nothing. *)
Definition log_page_set_to_be_deleted (page : option bf_idx) (s : smlevel_0)
  : w_rc_t * smlevel_0 :=
  match log_space s with
  | O => (RC eOUTOFLOGSPACE, s)
  | S room =>
      (RCOK, {| bf := bf s; log := log s ++ [t_page_set_to_be_deleted page];
                log_space := room; force_Q_fixing := force_Q_fixing s |})
  end.

(** ** fixable_page_h.cpp *)

(** [w_assert1] is compiled out of production builds; the definitions
    follow the statements that remain, and the properties below carry an
    asserted condition as a hypothesis where they depend on it. *)

Module fixable_page_h.

(** Modelled from the spec: the class is declared in
    [fixable_page_h.h], which is not among the sources; these are the
    data members that [fixable_page_h.cpp] uses: [_pp], [_mode],
    [_Q_ticket]. *)
Record handle := {
  _pp : option bf_idx;
  _mode : latch_mode_t;
  _Q_ticket : Z
}.

(** Modelled from the spec: [latch_mode()] is an inline member of
    [fixable_page_h.h], which is not among the sources; it reads
    [_mode]. *)
Definition latch_mode (h : handle) : latch_mode_t := _mode h.

(** Modelled from the spec: [is_fixed()], of the same header; a handle
    is fixed when its mode is not [LATCH_NL]. *)
Definition is_fixed (h : handle) : bool := negb (bool_decide (_mode h = LATCH_NL)).

(** Modelled from the spec: [is_latched()], of the same header; a handle
    is latched when it holds its page in SH or EX mode (the Q mode holds
    no latch, section 4.1). *)
Definition is_latched (h : handle) : bool :=
  bool_decide (_mode h = LATCH_SH) || bool_decide (_mode h = LATCH_EX).

(** [void fixable_page_h::unfix()] *)
Definition unfix (h : handle) (s : smlevel_0) : handle * smlevel_0 :=
  if negb (bool_decide (_mode h = LATCH_NL)) then
    let s' :=
      if negb (bool_decide (_mode h = LATCH_Q)) then
        with_bf (bf_tree_m.unfix (_pp h)) s
      else s in
    ({| _pp := None; _mode := LATCH_NL; _Q_ticket := _Q_ticket h |}, s')
  else (h, s).

(** [bool fixable_page_h::change_possible_after_fix() const]:
    [return false; // for now assume no interference] *)
Definition change_possible_after_fix (h : handle) (s : smlevel_0) : bool := false.

(** The statements of [fix_nonroot] after the branch on the Q mode:
    [_mode = mode;] and the check "crabbing from Q". *)
Definition fix_nonroot_finish (parent : handle) (mode : latch_mode_t)
    (h : handle) (s : smlevel_0) : w_rc_t * handle * smlevel_0 :=
  let h := {| _pp := _pp h; _mode := mode; _Q_ticket := _Q_ticket h |} in
  if bool_decide (latch_mode parent = LATCH_Q) then
    if change_possible_after_fix parent s then
      let '(h, s) := unfix h s in
      (RC ePARENTLATCHQFAIL, h, s)
    else (RCOK, h, s)
  else (RCOK, h, s).

(** [w_rc_t fixable_page_h::fix_nonroot(parent, vol, shpid, mode,
    conditional, virgin_page)].  [parent] is another handle than the
    one being fixed.  [W_DO] returns the callee's error at once; the
    page and ticket are passed by reference and keep what the callee
    stored.  The result is [None] when a callee does not come back. *)
Definition fix_nonroot (parent : handle) (vol shpid : Z) (mode : latch_mode_t)
    (conditional virgin_page : bool) (h : handle) (s : smlevel_0)
    : option (w_rc_t * handle * smlevel_0) :=
  let mode :=
    if bool_decide (1 < force_Q_fixing s) && bool_decide (mode = LATCH_SH)
    then LATCH_Q else mode in
  let '(h, s) := unfix h s in
  if bool_decide (mode = LATCH_Q) || bool_decide (latch_mode parent = LATCH_Q) then
    if virgin_page || negb (is_swizzled_pointer shpid) then
      Some (RC eLATCHQFAIL, h, s)
    else
      '(rc, pp, ticket) ← bf_tree_m.fix_with_Q_nonroot (_pp h) vol shpid (_Q_ticket h) (bf s);
      let h := {| _pp := pp; _mode := _mode h; _Q_ticket := ticket |} in
      if is_error rc then Some (rc, h, s)
      else if false then
        (* test ticket later for validity *)
        Some (RC eLATCHQFAIL,
              {| _pp := None; _mode := _mode h; _Q_ticket := _Q_ticket h |}, s)
      else if negb (bool_decide (mode = LATCH_Q)) then
        Some (RC ePARENTLATCHQFAIL,
              {| _pp := None; _mode := _mode h; _Q_ticket := _Q_ticket h |}, s)
      else Some (fix_nonroot_finish parent mode h s)
  else
    '(rc, pp, b) ← bf_tree_m.fix_nonroot (_pp h) (_pp parent) vol shpid mode
                      conditional virgin_page (bf s);
    let h := {| _pp := pp; _mode := _mode h; _Q_ticket := _Q_ticket h |} in
    let s := with_bf (fun _ => b) s in
    if is_error rc then Some (rc, h, s)
    else Some (fix_nonroot_finish parent mode h s).

(** [w_rc_t fixable_page_h::fix_direct(vol, shpid, mode, conditional,
    virgin_page)] *)
Definition fix_direct (vol shpid : Z) (mode : latch_mode_t)
    (conditional virgin_page : bool) (h : handle) (s : smlevel_0)
    : option (w_rc_t * handle * smlevel_0) :=
  let '(h, s) := unfix h s in
  if bool_decide (mode = LATCH_Q) then Some (RC eLATCHQFAIL, h, s)
  else
    '(rc, pp, b) ← bf_tree_m.fix_direct (_pp h) vol shpid mode conditional
                      virgin_page (bf s);
    let h := {| _pp := pp; _mode := _mode h; _Q_ticket := _Q_ticket h |} in
    let s := with_bf (fun _ => b) s in
    if is_error rc then Some (rc, h, s)
    else Some (RCOK, {| _pp := _pp h; _mode := mode; _Q_ticket := _Q_ticket h |}, s).

(** [void fixable_page_h::set_dirty() const] *)
Definition set_dirty (h : handle) (s : smlevel_0) : smlevel_0 :=
  if negb (bool_decide (_mode h = LATCH_NL)) then
    with_bf (bf_tree_m.set_dirty (curr_lsn s) (_pp h)) s
  else s.

(** [_pp->page_flags]: the page the handle points to.  There is none
    for a [NULL] pointer or a pointer outside the frame array. *)
Definition page_of (h : handle) (s : smlevel_0) : option generic_page :=
  idx ← _pp h; bf_tree_m._buffer (bf s) !! idx.

Definition update_page_flags (f : Z -> Z) (h : handle) (s : smlevel_0) : smlevel_0 :=
  match _pp h with
  | None => s
  | Some idx => with_bf (bf_tree_m.with_buffer (alter (set_page_flags f) idx)) s
  end.

Section PageFlags.

(** [t_to_be_deleted] is an enumerator of [generic_page.h], which is
    not among the sources: the mask is a parameter here. *)
Variable t_to_be_deleted : Z.

(** [rc_t fixable_page_h::set_to_be_deleted(bool log_it)].  The
    result is [None] when [_pp] points to no page. *)
Definition set_to_be_deleted (log_it : bool) (h : handle) (s : smlevel_0)
  : option (w_rc_t * smlevel_0) :=
  pg ← page_of h s;
  if Z.land (page_flags pg) t_to_be_deleted =? 0 then
    let '(rc, s) :=
      if log_it then log_page_set_to_be_deleted (_pp h) s else (RCOK, s) in
    if is_error rc then Some (rc, s)
    else
      let s := update_page_flags (fun flags => Z.lxor flags t_to_be_deleted) h s in
      Some (RCOK, set_dirty h s)
  else Some (RCOK, s).

(** [void fixable_page_h::unset_to_be_deleted()] *)
Definition unset_to_be_deleted (h : handle) (s : smlevel_0) : option smlevel_0 :=
  pg ← page_of h s;
  if negb (Z.land (page_flags pg) t_to_be_deleted =? 0) then
    Some (update_page_flags (fun flags => Z.lxor flags t_to_be_deleted) h s)
  else Some s.

(** [bool fixable_page_h::is_to_be_deleted()] *)
Definition is_to_be_deleted (h : handle) (s : smlevel_0) : option bool :=
  pg ← page_of h s;
  Some (negb (Z.land (page_flags pg) t_to_be_deleted =? 0)).

End PageFlags.

End fixable_page_h.

(** ** Observations and sample configurations used in the statements *)

(** The flags word of the page a handle points to, and the dirty flag of
    that page's control block. *)
Definition flags_at (h : fixable_page_h.handle) (s : smlevel_0) : option Z :=
page_flags <$> fixable_page_h.page_of h s.

Definition dirty_at (h : fixable_page_h.handle) (s : smlevel_0) : option bool :=
_dirty <$> bf_tree_m.get_cb (bf s) (fixable_page_h._pp h).

(** Whether the Q ticket of a handle still is good for the latch of the
    frame it points to. *)
Definition handle_ticket_valid (h : fixable_page_h.handle) (s : smlevel_0) : option bool :=
cb ← bf_tree_m.get_cb (bf s) (fixable_page_h._pp h);
Some (q_ticket_valid (_latch cb) (fixable_page_h._Q_ticket h)).

Definition free_latch (version : Z) : latch_t :=
{| latch_holder := LATCH_NL; latch_cnt := 0%nat; latch_version := version |}.

Definition held_latch (mode : latch_mode_t) (version : Z) : latch_t :=
{| latch_holder := mode; latch_cnt := 1%nat; latch_version := version |}.

Definition resident_cb (vol shpid pin : Z) (l : latch_t) : bf_tree_cb_t :=
{| _used := true; _dirty := false; _pin_cnt := pin; _pid_vol := vol;
   _pid_shpid := shpid; _rec_lsn := 0; _latch := l |}.

Definition vacant_cb : bf_tree_cb_t :=
{| _used := false; _dirty := false; _pin_cnt := 0; _pid_vol := 0;
   _pid_shpid := 0; _rec_lsn := 0; _latch := free_latch 0 |}.

(** A pool of three frames (index 0 is reserved): frame 1 holds page 10
    of volume 1, frame 2 holds its child, page 11, and frame 3 is free.
    Page 12 of volume 1 is on disk only. *)
Definition sample_pool (parent_cb child_cb : bf_tree_cb_t) (child_flags : Z)
  : bf_tree_m.pool :=
{| bf_tree_m._control_blocks := [vacant_cb; parent_cb; child_cb; vacant_cb];
   bf_tree_m._buffer :=
     [ {| page_flags := 0 |}; {| page_flags := 0 |};
       {| page_flags := child_flags |}; {| page_flags := 0 |} ];
   bf_tree_m._hashtable := <[bf_key 1 10 := 1%nat]> (<[bf_key 1 11 := 2%nat]> ∅);
   bf_tree_m._freelist := [3%nat];
   bf_tree_m._volumes := <[bf_key 1 12 := {| page_flags := 0 |}]> ∅ |}.

Definition sample_sm (b : bf_tree_m.pool) : smlevel_0 :=
{| bf := b; log := []; log_space := 8%nat; force_Q_fixing := 0 |}.

(** Nobody holds a latch. *)
Definition quiet_pool : bf_tree_m.pool :=
sample_pool (resident_cb 1 10 0 (free_latch 0)) (resident_cb 1 11 0 (free_latch 0)) 0.

(** The child page is held in EX mode by one handle; its flags word is
    [child_flags]. *)
Definition child_latched_pool (child_flags : Z) : bf_tree_m.pool :=
sample_pool (resident_cb 1 10 0 (free_latch 0))
            (resident_cb 1 11 1 (held_latch LATCH_EX 1)) child_flags.

(** The parent page was latched in EX mode and released again after a
    reader took Q ticket 0 on it: its version word has moved to 2. *)
Definition parent_rewritten_pool : bf_tree_m.pool :=
sample_pool (resident_cb 1 10 0 (free_latch 2)) (resident_cb 1 11 0 (free_latch 0)) 0.

(** The parent page is held in SH mode by one handle while a writer
    holds the child page in EX mode. *)
Definition writer_on_child_pool : bf_tree_m.pool :=
sample_pool (resident_cb 1 10 1 (held_latch LATCH_SH 0))
            (resident_cb 1 11 1 (held_latch LATCH_EX 1)) 0.

(** A pointer to frame 2 as a parent page stores it once swizzled. *)
Definition swizzled_child : Z := Z.lor 2 SWIZZLED_PID_BIT.

(** ** log_carray.h: a slot joined several times *)

(** The status after one [join_carray_status] per log size, oldest
    first: the values that successive joiners of one slot install. *)
Definition join_each (sizes : list Z) (status : Z) : Z :=
  fold_left ConsolidationArray.join_carray_status sizes status.

Definition total_size (sizes : list Z) : Z := fold_right Z.add 0 sizes.

(** ** bf_tree.h: pin_for_refix_holder *)

Module pin_for_refix_holder.

(** The holders that exist, each with its [_idx], by object identity
    (the position in [holders]); and the calls of
    [bf_tree_m::unpin_for_refix] made so far, oldest first. *)
Record heap := {
  holders : list bf_idx;
  unpinned : list bf_idx
}.

(** [pin_for_refix_holder() : _idx(0) {}] and
    [pin_for_refix_holder(bf_idx idx) : _idx(idx) {}]: the new object is
    the last of [holders].  The copying constructor is left out: it
    calls [steal_ownership] on a member that has no value yet. *)
Definition construct (idx : bf_idx) (m : heap) : heap :=
  {| holders := holders m ++ [idx]; unpinned := unpinned m |}.

(** [bf_idx idx() const { return _idx; }] *)
Definition idx (this : nat) (m : heap) : option bf_idx := holders m !! this.

(** Modelled from the spec: [release()] is declared in the class and
    defined in a file that is not among the sources.  The holder
    "releases the pin count" (bf_tree.h) of its frame through
    [unpin_for_refix] and holds nothing afterwards. *)
Definition release (this : nat) (m : heap) : option heap :=
  held ← holders m !! this;
  Some {| holders := <[this := 0%nat]> (holders m);
          unpinned := unpinned m ++ [held] |}.

(** [if (_idx != 0) { release(); }], the opening of [set], of
    [steal_ownership] and of the destructor. *)
Definition release_if_held (this : nat) (m : heap) : option heap :=
  held ← holders m !! this;
  if negb (held =? 0)%nat then release this m else Some m.

(** [void set(bf_idx idx)] *)
Definition set (this : nat) (idx : bf_idx) (m : heap) : option heap :=
  m ← release_if_held this m;
  Some {| holders := <[this := idx]> (holders m); unpinned := unpinned m |}.


(** [~pin_for_refix_holder()]; the object's place in [holders] stays,
    holding nothing. *)
Definition destroy (this : nat) (m : heap) : option heap :=
  m ← release_if_held this m;
  Some {| holders := <[this := 0%nat]> (holders m); unpinned := unpinned m |}.






End pin_for_refix_holder.

(** ** xct.h *)

(** Modelled from the spec: [smlevel_0::concurrency_t] is declared in
    a header that is not among the sources.  [xct.h] names the
    enumerators [t_cc_none] and [t_cc_keyrange]; the others are carried
    by their code. *)
Inductive concurrency_t := t_cc_none | t_cc_keyrange | t_cc_other (code : Z).

#[global] Instance concurrency_t_eq_dec : EqDecision concurrency_t.
Proof. solve_decision. Defined.

Module xct_t.

(** The data members of [xct_t] that the inline functions of [xct.h]
    below read and write.  Modelled from the spec: [lsn_t] is declared
    in [lsn.h], which is not among the sources; a log sequence number is
    carried as an integer, ordered as integers are. *)
Record xct := {
  _sys_xct : bool;
  _single_log_sys_xct : bool;
  _piggy_backed_single_log_sys_xct : bool;
  _query_concurrency : concurrency_t;
  _query_exlock_for_select : bool;
  _read_watermark : Z
}.

(** [bool is_sys_xct () const] *)
Definition is_sys_xct (x : xct) : bool :=
  _sys_xct x || _piggy_backed_single_log_sys_xct x.

(** [bool is_single_log_sys_xct() const] *)
Definition is_single_log_sys_xct (x : xct) : bool :=
  _single_log_sys_xct x || _piggy_backed_single_log_sys_xct x.

(** [concurrency_t get_query_concurrency() const] *)
Definition get_query_concurrency (x : xct) : concurrency_t := _query_concurrency x.

(** [void set_query_concurrency(concurrency_t mode)] *)
Definition set_query_concurrency (mode : concurrency_t) (x : xct) : xct :=
  {| _sys_xct := _sys_xct x; _single_log_sys_xct := _single_log_sys_xct x;
     _piggy_backed_single_log_sys_xct := _piggy_backed_single_log_sys_xct x;
     _query_concurrency := mode;
     _query_exlock_for_select := _query_exlock_for_select x;
     _read_watermark := _read_watermark x |}.

(** [void update_read_watermark(const lsn_t &tag)] *)
Definition update_read_watermark (tag : Z) (x : xct) : xct :=
  if _read_watermark x <? tag then
    {| _sys_xct := _sys_xct x; _single_log_sys_xct := _single_log_sys_xct x;
       _piggy_backed_single_log_sys_xct := _piggy_backed_single_log_sys_xct x;
       _query_concurrency := _query_concurrency x;
       _query_exlock_for_select := _query_exlock_for_select x;
       _read_watermark := tag |}
  else x.

End xct_t.

(** [inline bool g_xct_does_need_lock()]; the argument is what
    [g_xct()] returns, the transaction attached to the running thread
    or [NULL]. *)
Definition g_xct_does_need_lock (x : option xct_t.xct) : bool :=
  match x with
  | None => false
  | Some x =>
      if xct_t.is_sys_xct x then false
      else bool_decide (xct_t.get_query_concurrency x = t_cc_keyrange)
  end.

(** [inline bool g_xct_does_ex_lock_for_select()] *)
Definition g_xct_does_ex_lock_for_select (x : option xct_t.xct) : bool :=
  match x with
  | None => false
  | Some x => xct_t._query_exlock_for_select x
  end.

Module no_lock_section_t.

(** [no_lock_section_t ()]: the result is the member [org_cc] of the
    new object and the transaction of the thread. *)
Definition enter (x : option xct_t.xct) : concurrency_t * option xct_t.xct :=
  match x with
  | Some x =>
      (xct_t.get_query_concurrency x, Some (xct_t.set_query_concurrency t_cc_none x))
  | None => (t_cc_none, None)
  end.

(** [~no_lock_section_t ()] *)
Definition leave (org_cc : concurrency_t) (x : option xct_t.xct) : option xct_t.xct :=
  match x with
  | Some x => Some (xct_t.set_query_concurrency org_cc x)
  | None => None
  end.

(** Sections opened one inside the other: the [org_cc] of each, the
    innermost first, and the transaction inside them all. *)
Fixpoint enter_nested (depth : nat) (x : option xct_t.xct)
  : list concurrency_t * option xct_t.xct :=
  match depth with
  | O => ([], x)
  | S depth =>
      let '(org_cc, x) := enter x in
      let '(inner, x) := enter_nested depth x in
      (inner ++ [org_cc], x)
  end.

(** The scopes end in the reverse order: the innermost first. *)
Definition leave_nested (sections : list concurrency_t) (x : option xct_t.xct)
  : option xct_t.xct :=
  fold_left (fun x org_cc => leave org_cc x) sections x.

End no_lock_section_t.

Module auto_rollback_t.

(** The members [_xd] (whether a transaction was attached when the
    object was made), [_save_pt], [_roll] and [_test]; [_line] and
    [_file] only serve messages. *)
Record auto_rollback := {
  _xd : bool;
  _save_pt : Z;
  _roll : bool;
  _test : Z
}.

(** [auto_rollback_t(int line, const char *file)]: [attached] tells
    whether [xct()] is not [NULL], [save_pt] is the save point that the
    transaction then hands out; without a transaction [_save_pt] keeps
    the null value of its type.  The result is the object and the static
    [_count], which is incremented as an [int]. *)
Definition construct (attached : bool) (save_pt : Z) (_count : Z) : auto_rollback * Z :=
  ({| _xd := attached; _save_pt := if attached then save_pt else 0;
      _roll := true; _test := 0 |},
   wrap_int32 (_count + 1)).



(** [~auto_rollback_t()]: the save point the transaction is rolled back
    to, if it is rolled back. *)
Definition destroy (_count : Z) (a : auto_rollback) : option Z :=
  let roll :=
    if negb (_test a =? 0) && (Z.rem _count (_test a) =? 0) then true else _roll a in
  if roll && _xd a then Some (_save_pt a) else None.

End auto_rollback_t.

(** ** fixable_page_h.cpp: fix_root and refix_direct *)

Module fixable_page_h_root.

Import fixable_page_h.

Section RootTable.

(** [bf_idx get_root_page_idx(stid_t store)] (bf_tree.h): the frame of
    the root page of a store, "always kept in the volume descriptor".
    The descriptors are filled when a volume is mounted, outside the
    sources: the table is a parameter here, by volume and store. *)
Variable get_root_page_idx : Z -> Z -> option bf_idx.

(** Modelled from the spec: the body of [bf_tree_m::fix_root] is
    missing.  It "locates the per-store pre-pinned root frame from a
    per-volume descriptor table and latches it" (section 4.3). *)
Definition bf_fix_root (page : option bf_idx) (vol store : Z) (mode : latch_mode_t)
    (conditional : bool) (b : bf_tree_m.pool)
    : option (w_rc_t * option bf_idx * bf_tree_m.pool) :=
  idx ← get_root_page_idx vol store;
  bf_tree_m.latch_frame idx mode conditional page b.

(** Modelled from the spec: the body of [bf_tree_m::fix_with_Q_root]
    is missing.  "Fixes an existing (not virgin) root page for the given
    store in Q mode" (bf_tree.h): no latch is taken, the ticket is the
    version word of the frame's latch. *)
Definition bf_fix_with_Q_root (page : option bf_idx) (vol store : Z) (ticket : Z)
    (b : bf_tree_m.pool) : option (w_rc_t * option bf_idx * Z) :=
  idx ← get_root_page_idx vol store;
  cb ← bf_tree_m._control_blocks b !! idx;
  Some (RCOK, Some idx, latch_version (_latch cb)).

(** Modelled from the spec: the body of [bf_tree_m::refix_direct] is
    missing.  "Fixes a page with the already known slot index, assuming
    the slot has at least one pin count" (bf_tree.h). *)
Definition bf_refix_direct (page : option bf_idx) (idx : bf_idx) (mode : latch_mode_t)
    (conditional : bool) (b : bf_tree_m.pool)
    : option (w_rc_t * option bf_idx * bf_tree_m.pool) :=
  bf_tree_m.latch_frame idx mode conditional page b.

(** [w_rc_t fixable_page_h::fix_root(vol, store, mode, conditional)] *)
Definition fix_root (vol store : Z) (mode : latch_mode_t) (conditional : bool)
    (h : handle) (s : smlevel_0) : option (w_rc_t * handle * smlevel_0) :=
  let mode :=
    if bool_decide (0 < force_Q_fixing s) && bool_decide (mode = LATCH_SH)
    then LATCH_Q else mode in
  let '(h, s) := unfix h s in
  if bool_decide (mode = LATCH_Q) then
    '(rc, pp, ticket) ← bf_fix_with_Q_root (_pp h) vol store (_Q_ticket h) (bf s);
    let h := {| _pp := pp; _mode := _mode h; _Q_ticket := ticket |} in
    if is_error rc then Some (rc, h, s)
    else if false then
      (* test ticket later for validity *)
      Some (RC eLATCHQFAIL,
            {| _pp := None; _mode := _mode h; _Q_ticket := _Q_ticket h |}, s)
    else Some (RCOK, {| _pp := _pp h; _mode := mode; _Q_ticket := _Q_ticket h |}, s)
  else
    '(rc, pp, b) ← bf_fix_root (_pp h) vol store mode conditional (bf s);
    let h := {| _pp := pp; _mode := _mode h; _Q_ticket := _Q_ticket h |} in
    let s := with_bf (fun _ => b) s in
    if is_error rc then Some (rc, h, s)
    else Some (RCOK, {| _pp := _pp h; _mode := mode; _Q_ticket := _Q_ticket h |}, s).

(** [w_rc_t fixable_page_h::refix_direct(idx, mode, conditional)] *)
Definition refix_direct (idx : bf_idx) (mode : latch_mode_t) (conditional : bool)
    (h : handle) (s : smlevel_0) : option (w_rc_t * handle * smlevel_0) :=
  let '(h, s) := unfix h s in
  if bool_decide (mode = LATCH_Q) then Some (RC eLATCHQFAIL, h, s)
  else
    '(rc, pp, b) ← bf_refix_direct (_pp h) idx mode conditional (bf s);
    let h := {| _pp := pp; _mode := _mode h; _Q_ticket := _Q_ticket h |} in
    let s := with_bf (fun _ => b) s in
    if is_error rc then Some (rc, h, s)
    else Some (RCOK, {| _pp := _pp h; _mode := mode; _Q_ticket := _Q_ticket h |}, s).

End RootTable.

End fixable_page_h_root.

(** The root table of the sample pools: store 1 of volume 1 has its
    root page in frame 1. *)
Definition sample_roots (vol store : Z) : option bf_idx :=
  if (vol =? 1) && (store =? 1) then Some 1%nat else None.

(** * Properties *)

(** ** Fixed-width arithmetic *)

Lemma wrap_int64_small z : is_int64 z -> wrap_int64 z = z.
Proof.
  unfold is_int64, INT64_MAX, wrap_int64. intros Hz.
  rewrite Z.mod_small; lia.
Qed.

Lemma wrap_int64_above z :
  INT64_MAX < z < 2 ^ 63 + 2 ^ 64 -> wrap_int64 z = z - 2 ^ 64.
Proof.
  unfold INT64_MAX, wrap_int64. intros Hz.
  rewrite <- (Z.mod_unique (z + 2 ^ 63) (2 ^ 64) 1 (z + 2 ^ 63 - 2 ^ 64)); lia.
Qed.

Lemma wrap_int64_add_l a b : wrap_int64 (wrap_int64 a + b) = wrap_int64 (a + b).
Proof.
  unfold wrap_int64. f_equal.
  replace ((a + 2 ^ 63) mod 2 ^ 64 - 2 ^ 63 + b + 2 ^ 63)
    with ((a + 2 ^ 63) mod 2 ^ 64 + b) by lia.
  rewrite Zplus_mod_idemp_l. f_equal. lia.
Qed.

Lemma wrap_int32_small z : is_int32 z -> wrap_int32 z = z.
Proof.
  unfold is_int32, INT32_MAX, wrap_int32. intros Hz.
  rewrite Z.mod_small; lia.
Qed.

Lemma wrap_uint64_small z : 0 <= z < 2 ^ 64 -> wrap_uint64 z = z.
Proof. unfold wrap_uint64. intros Hz. now apply Z.mod_small. Qed.

(** ** Consolidation array status words *)

Section CarrayStatus.

Import ConsolidationArray.

Lemma THREAD_INCREMENT_value : THREAD_INCREMENT = 2 ^ 32.
Proof. reflexivity. Qed.

(** Whatever the operands, a join is the wrapped sum. *)
Lemma join_carray_status_wrap cs ls :
  join_carray_status cs ls = wrap_int64 (cs + ls + 2 ^ 32).
Proof.
  unfold join_carray_status. rewrite THREAD_INCREMENT_value.
  apply wrap_int64_add_l.
Qed.

Lemma join_carray_status_exact cs ls :
  0 <= cs -> 0 <= ls -> cs + ls + 2 ^ 32 <= INT64_MAX ->
  join_carray_status cs ls = cs + ls + 2 ^ 32.
Proof.
  intros Hcs Hls Hfit. rewrite join_carray_status_wrap.
  apply wrap_int64_small. unfold is_int64. lia.
Qed.

(** What [extract_carray_log_size] computes: the low 16 bits. *)
Lemma extract_carray_log_size_low16 status :
  extract_carray_log_size status = status mod 2 ^ 16.
Proof.
  unfold extract_carray_log_size, THREAD_MASK.
  change 0xFFFF with (Z.ones 16). rewrite Z.land_ones by lia.
  apply wrap_int32_small. unfold is_int32, INT32_MAX.
  pose proof (Z.mod_pos_bound status (2 ^ 16)). lia.
Qed.

(** C1.  The status of a group of two threads that hold 70000 bytes of
    log between them is [2 * 2^32 + 70000]; its low 32 bits are 70000,
    but [extract_carray_log_size] answers 4464, the low 16 bits: the
    mask is [0xFFFF].  The function does not return the total number of
    log bytes held in the low 32 bits. *)
Theorem extract_carray_log_size_truncates :
  0 <= 2 * 2 ^ 32 + 70000
  /\ status_thread_count (2 * 2 ^ 32 + 70000) = 2
  /\ status_total_bytes (2 * 2 ^ 32 + 70000) = 70000
  /\ extract_carray_log_size (2 * 2 ^ 32 + 70000) = 4464
  /\ extract_carray_log_size (2 * 2 ^ 32 + 70000) <> 70000.
Proof. repeat split; try reflexivity; try discriminate. Qed.

(** C5, as amended.  For a status [cs >= 0] and a log size [ls >= 0]
    whose sum with [2^32] still is an [int64_t], the join is
    [cs + ls + 2^32]; if moreover the byte total stays below [2^32],
    the thread count in the high 32 bits grows by exactly one and the
    low 32 bits grow by the log size. *)
Theorem join_carray_status_adds cs ls :
  0 <= cs -> 0 <= ls -> cs + ls + 2 ^ 32 <= INT64_MAX ->
  join_carray_status cs ls = cs + ls + 2 ^ 32
  /\ (status_total_bytes cs + ls < 2 ^ 32 ->
      status_thread_count (join_carray_status cs ls) = status_thread_count cs + 1
      /\ status_total_bytes (join_carray_status cs ls) = status_total_bytes cs + ls).
Proof.
  intros Hcs Hls Hfit.
  rewrite (join_carray_status_exact cs ls Hcs Hls Hfit).
  split; [reflexivity|].
  unfold status_thread_count, status_total_bytes.
  rewrite !Z.land_ones, !Z.shiftr_div_pow2 by lia.
  intros Hbytes.
  pose proof (Z.div_mod cs (2 ^ 32) ltac:(lia)) as Hdm.
  pose proof (Z.mod_pos_bound cs (2 ^ 32) ltac:(lia)) as Hb.
  assert (Hq : (cs + ls + 2 ^ 32) / 2 ^ 32 = cs / 2 ^ 32 + 1).
  { symmetry. apply (Z.div_unique _ _ _ (cs mod 2 ^ 32 + ls)); lia. }
  split; [exact Hq|].
  symmetry. apply (Z.mod_unique _ _ (cs / 2 ^ 32 + 1)); lia.
Qed.

Lemma join_carray_status_adds_witness :
  join_carray_status (3 * 2 ^ 32 + 100) 28 = 3 * 2 ^ 32 + 100 + 28 + 2 ^ 32
  /\ (status_total_bytes (3 * 2 ^ 32 + 100) + 28 < 2 ^ 32 ->
      status_thread_count (join_carray_status (3 * 2 ^ 32 + 100) 28)
      = status_thread_count (3 * 2 ^ 32 + 100) + 1
      /\ status_total_bytes (join_carray_status (3 * 2 ^ 32 + 100) 28)
         = status_total_bytes (3 * 2 ^ 32 + 100) + 28).
Proof.
  apply (join_carray_status_adds (3 * 2 ^ 32 + 100) 28);
    unfold INT64_MAX; lia.
Defined.

(** C5 as stated fails at the largest status: the sum leaves
    [int64_t] and the join comes back negative. *)
Lemma join_carray_status_overflow :
  0 <= INT64_MAX /\ 0 <= 0
  /\ join_carray_status INT64_MAX 0 = - 2 ^ 63 + 2 ^ 32 - 1
  /\ join_carray_status INT64_MAX 0 <> INT64_MAX + 0 + 2 ^ 32.
Proof. repeat split; try reflexivity; try discriminate. Qed.

(** C6, as amended.  The sentinels are 0, -1, -2 and -4.  For a status
    [cs >= 0] and a log size [ls >= 0] of their types, the joined status
    is strictly positive provided [cs + ls + 2^32] still is an
    [int64_t], and in every case, wrapped or not, it differs from all
    four sentinels. *)
Theorem joined_status_is_no_sentinel cs ls :
  0 <= cs <= INT64_MAX -> 0 <= ls <= INT32_MAX ->
  (SLOT_AVAILABLE = 0 /\ SLOT_UNUSED = -1 /\ SLOT_PENDING = -2 /\ SLOT_FINISHED = -4)
  /\ (cs + ls + 2 ^ 32 <= INT64_MAX -> 0 < join_carray_status cs ls)
  /\ join_carray_status cs ls <> SLOT_AVAILABLE
  /\ join_carray_status cs ls <> SLOT_UNUSED
  /\ join_carray_status cs ls <> SLOT_PENDING
  /\ join_carray_status cs ls <> SLOT_FINISHED.
Proof.
  intros Hcs Hls.
  split; [repeat split|].
  split.
  { intros Hfit. rewrite join_carray_status_exact; lia. }
  unfold SLOT_AVAILABLE, SLOT_UNUSED, SLOT_PENDING, SLOT_FINISHED.
  destruct (Z_le_gt_dec (cs + ls + 2 ^ 32) INT64_MAX) as [Hfit|Hover].
  - rewrite join_carray_status_exact by lia. lia.
  - rewrite join_carray_status_wrap, wrap_int64_above;
      unfold INT64_MAX, INT32_MAX in *; lia.
Qed.

Lemma joined_status_is_no_sentinel_witness :
  (SLOT_AVAILABLE = 0 /\ SLOT_UNUSED = -1 /\ SLOT_PENDING = -2 /\ SLOT_FINISHED = -4)
  /\ (0 + 24 + 2 ^ 32 <= INT64_MAX -> 0 < join_carray_status 0 24)
  /\ join_carray_status 0 24 <> SLOT_AVAILABLE
  /\ join_carray_status 0 24 <> SLOT_UNUSED
  /\ join_carray_status 0 24 <> SLOT_PENDING
  /\ join_carray_status 0 24 <> SLOT_FINISHED.
Proof.
  apply (joined_status_is_no_sentinel 0 24); unfold INT64_MAX, INT32_MAX; lia.
Defined.

(** C6 as stated fails at the largest status: the join of
    [INT64_MAX] with an empty log record is not strictly positive. *)
Lemma joined_status_not_positive :
  0 <= INT64_MAX /\ 0 <= 0 /\ ~ 0 < join_carray_status INT64_MAX 0.
Proof.
  split; [discriminate|]. split; [discriminate|].
  intros H. vm_compute in H. discriminate.
Qed.

End CarrayStatus.

(** ** Swizzled pointers and hash keys *)

Section Pointers.

Lemma land_pow2_testbit x n :
  0 <= n -> (Z.land x (2 ^ n) =? 0) = negb (Z.testbit x n).
Proof.
  intros Hn. destruct (Z.testbit x n) eqn:Hbit; simpl.
  - apply Z.eqb_neq. intros Hzero.
    assert (Hb : Z.testbit (Z.land x (2 ^ n)) n = true)
      by (rewrite Z.land_spec, Hbit, Z.pow2_bits_true; auto).
    rewrite Hzero, Z.bits_0 in Hb. discriminate.
  - apply Z.eqb_eq. apply Z.bits_inj'. intros m Hm.
    rewrite Z.land_spec, Z.bits_0, Z.pow2_bits_eqb by assumption.
    destruct (Z.eqb_spec n m) as [->|Hne].
    + now rewrite Hbit.
    + apply andb_false_r.
Qed.

Lemma is_swizzled_pointer_testbit x : is_swizzled_pointer x = Z.testbit x 31.
Proof.
  unfold is_swizzled_pointer, SWIZZLED_PID_BIT.
  change 0x80000000 with (2 ^ 31).
  rewrite land_pow2_testbit by lia. apply negb_involutive.
Qed.

(** C8.  For a 32-bit pointer value [x], [is_swizzled_pointer x] is bit
    31 of [x]: it answers true exactly for the values from [0x80000000]
    on, whatever the other 31 bits hold. *)
Theorem is_swizzled_pointer_high_bit x :
  is_uint32 x ->
  is_swizzled_pointer x = Z.testbit x 31
  /\ (is_swizzled_pointer x = true <-> 2 ^ 31 <= x)
  /\ (forall y, is_uint32 y -> Z.testbit y 31 = Z.testbit x 31 ->
        is_swizzled_pointer y = is_swizzled_pointer x).
Proof.
  unfold is_uint32. intros Hx.
  split; [apply is_swizzled_pointer_testbit|].
  split.
  - rewrite is_swizzled_pointer_testbit, Z.testbit_true by lia.
    assert (Hq : 0 <= x / 2 ^ 31 < 2).
    { split; [apply Z.div_pos; lia | apply Z.div_lt_upper_bound; lia]. }
    pose proof (Z.div_mod x (2 ^ 31) ltac:(lia)) as Hdm.
    pose proof (Z.mod_pos_bound x (2 ^ 31) ltac:(lia)) as Hr.
    assert (Hcases : x / 2 ^ 31 = 0 \/ x / 2 ^ 31 = 1) by lia.
    destruct Hcases as [H0|H1].
    + rewrite H0 in *. change (0 mod 2) with 0. lia.
    + rewrite H1 in *. change (1 mod 2) with 1. lia.
  - intros y _ Hy. now rewrite !is_swizzled_pointer_testbit.
Qed.

Lemma is_swizzled_pointer_high_bit_witness :
  is_swizzled_pointer 0x80000007 = Z.testbit 0x80000007 31
  /\ (is_swizzled_pointer 0x80000007 = true <-> 2 ^ 31 <= 0x80000007)
  /\ (forall y, is_uint32 y -> Z.testbit y 31 = Z.testbit 0x80000007 31 ->
        is_swizzled_pointer y = is_swizzled_pointer 0x80000007).
Proof. apply (is_swizzled_pointer_high_bit 0x80000007). unfold is_uint32. lia. Defined.

Lemma bf_key_sum vid shpid :
  is_uint32 vid -> is_uint32 shpid -> bf_key vid shpid = vid * 2 ^ 32 + shpid.
Proof.
  unfold is_uint32, bf_key. intros Hv Hp.
  rewrite (wrap_uint64_small vid) by lia.
  rewrite Z.shiftl_mul_pow2 by lia.
  rewrite (wrap_uint64_small (vid * 2 ^ 32)) by lia.
  apply wrap_uint64_small. lia.
Qed.

Lemma shiftl32_land_low vid shpid :
  is_uint32 shpid -> Z.land (Z.shiftl vid 32) shpid = 0.
Proof.
  unfold is_uint32. intros Hp.
  apply Z.bits_inj'. intros n Hn.
  rewrite Z.land_spec, Z.bits_0.
  destruct (Z_lt_ge_dec n 32) as [Hlow|Hhigh].
  - rewrite Z.shiftl_spec_low by lia. reflexivity.
  - replace (Z.testbit shpid n) with false; [apply andb_false_r|].
    symmetry. destruct (Z.eq_dec shpid 0) as [->|Hnz]; [apply Z.bits_0|].
    apply Z.bits_above_log2; [lia|].
    apply Z.log2_lt_pow2; [lia|].
    apply Z.lt_le_trans with (2 ^ 32); [lia|].
    apply Z.pow_le_mono_r; lia.
Qed.

Lemma bf_key_inj vid shpid vid' shpid' :
  is_uint32 vid -> is_uint32 shpid -> is_uint32 vid' -> is_uint32 shpid' ->
  bf_key vid shpid = bf_key vid' shpid' -> vid = vid' /\ shpid = shpid'.
Proof.
  intros Hv Hp Hv' Hp' Heq.
  rewrite !bf_key_sum in Heq by assumption.
  unfold is_uint32 in *. lia.
Qed.

(** C7.  For a volume id and a page id that fit in 32 bits each (a
    [vid_t] is narrower still), [bf_key vid shpid] is
    [(vid << 32) | shpid], and no other such pair has the same key. *)
Theorem bf_key_packs_injectively vid shpid :
  is_uint32 vid -> is_uint32 shpid ->
  bf_key vid shpid = Z.lor (Z.shiftl vid 32) shpid
  /\ (forall vid' shpid', is_uint32 vid' -> is_uint32 shpid' ->
        bf_key vid shpid = bf_key vid' shpid' -> vid = vid' /\ shpid = shpid').
Proof.
  intros Hv Hp. split.
  - rewrite bf_key_sum by assumption.
    rewrite <- Z.lxor_lor by (now apply shiftl32_land_low).
    rewrite <- Z.add_nocarry_lxor by (now apply shiftl32_land_low).
    rewrite Z.shiftl_mul_pow2 by lia. reflexivity.
  - intros vid' shpid' Hv' Hp'. now apply bf_key_inj.
Qed.

Lemma bf_key_packs_injectively_witness :
  bf_key 3 0x2A = Z.lor (Z.shiftl 3 32) 0x2A
  /\ (forall vid' shpid', is_uint32 vid' -> is_uint32 shpid' ->
        bf_key 3 0x2A = bf_key vid' shpid' -> 3 = vid' /\ 0x2A = shpid').
Proof. apply (bf_key_packs_injectively 3 0x2A); unfold is_uint32; lia. Defined.

End Pointers.

(** ** fixable_page_h: unfix *)

Section Unfix.

Import fixable_page_h.

Lemma unfix_unfixed h s : _mode h = LATCH_NL -> unfix h s = (h, s).
Proof. unfold unfix. intros ->. reflexivity. Qed.

Lemma unfix_mode h s : _mode (unfix h s).1 = LATCH_NL.
Proof. unfold unfix. destruct h as [pp [] t]; reflexivity. Qed.

Lemma unfix_ticket h s : _Q_ticket (unfix h s).1 = _Q_ticket h.
Proof. unfold unfix. destruct h as [pp [] t]; reflexivity. Qed.

Lemma unfix_keeps_log h s :
  log (unfix h s).2 = log s /\ log_space (unfix h s).2 = log_space s
  /\ force_Q_fixing (unfix h s).2 = force_Q_fixing s.
Proof. unfold unfix. destruct h as [pp [] t]; repeat split. Qed.

(** C9, as amended.  After any call the handle is in mode [LATCH_NL],
    and a second call changes neither the handle nor the storage
    manager; the page pointer is [NULL] after the call if the handle was
    fixed before it, and a handle that was not fixed is left as it is; a
    handle fixed in Q mode is cleared without any call into the buffer
    pool, which stays as it was. *)
Theorem unfix_idempotent h s :
  _mode (unfix h s).1 = LATCH_NL
  /\ unfix (unfix h s).1 (unfix h s).2 = unfix h s
  /\ (is_fixed h = true -> _pp (unfix h s).1 = None)
  /\ (is_fixed h = false -> unfix h s = (h, s))
  /\ (_mode h = LATCH_Q -> (unfix h s).2 = s).
Proof.
  destruct h as [pp mode t]. unfold is_fixed, unfix.
  destruct mode; cbn; repeat split; intros; try discriminate; reflexivity.
Qed.

Lemma unfix_idempotent_witness :
  let h := {| _pp := Some 1%nat; _mode := LATCH_Q; _Q_ticket := 0 |} in
  let s := sample_sm quiet_pool in
  _mode (unfix h s).1 = LATCH_NL
  /\ unfix (unfix h s).1 (unfix h s).2 = unfix h s
  /\ _pp (unfix h s).1 = None
  /\ (unfix h s).2 = s.
Proof.
  intros h s.
  destruct (unfix_idempotent h s) as (Hmode & Hagain & Hpp & _ & Hbf).
  split; [exact Hmode|]. split; [exact Hagain|].
  split; [apply Hpp | apply Hbf]; reflexivity.
Defined.

(** C9 as stated fails for a handle that is in mode [LATCH_NL] and
    points to a page: [unfix] leaves it alone, pointer included. *)
Lemma unfix_keeps_pointer_of_unfixed_handle :
  let h := {| _pp := Some 1%nat; _mode := LATCH_NL; _Q_ticket := 0 |} in
  unfix h (sample_sm quiet_pool) = (h, sample_sm quiet_pool)
  /\ _pp (unfix h (sample_sm quiet_pool)).1 <> None.
Proof. split; [reflexivity | discriminate]. Qed.

End Unfix.

(** ** fixable_page_h: fix_nonroot *)

Section FixNonroot.

Import fixable_page_h.

(** In Q mode under a Q-latched parent the fix succeeds as soon as the
    swizzled pointer designates a frame: neither the parent's ticket nor
    the state of any latch is consulted. *)
Lemma fix_nonroot_Q_under_Q_parent parent vol shpid conditional h s cb :
  latch_mode parent = LATCH_Q ->
  is_swizzled_pointer shpid = true ->
  bf_tree_m._control_blocks (bf (unfix h s).2) !! bf_tree_m.swizzled_frame shpid
    = Some cb ->
  fix_nonroot parent vol shpid LATCH_Q conditional false h s
  = Some (RCOK,
          {| _pp := Some (bf_tree_m.swizzled_frame shpid); _mode := LATCH_Q;
             _Q_ticket := latch_version (_latch cb) |},
          (unfix h s).2).
Proof.
  intros Hparent Hswz Hcb. unfold fix_nonroot.
  rewrite andb_false_r.
  destruct (unfix h s) as [h1 s1]. cbn in Hcb |- *.
  rewrite Hswz. cbn.
  unfold bf_tree_m.fix_with_Q_nonroot. rewrite Hcb. cbn.
  unfold fix_nonroot_finish, change_possible_after_fix.
  rewrite Hparent. reflexivity.
Qed.

(** In Q mode [fix_nonroot] never reports [ePARENTLATCHQFAIL]. *)
Lemma fix_nonroot_Q_never_ParentLatchQFail parent vol shpid conditional virgin_page h s r :
  fix_nonroot parent vol shpid LATCH_Q conditional virgin_page h s = Some r ->
  r.1.1 <> RC ePARENTLATCHQFAIL.
Proof.
  unfold fix_nonroot. rewrite andb_false_r.
  destruct (unfix h s) as [h1 s1]. cbn.
  destruct (virgin_page || negb (is_swizzled_pointer shpid)).
  - intros [= <-]. discriminate.
  - unfold bf_tree_m.fix_with_Q_nonroot.
    destruct (bf_tree_m._control_blocks (bf s1) !! bf_tree_m.swizzled_frame shpid);
      cbn; [|discriminate].
    unfold fix_nonroot_finish, change_possible_after_fix.
    destruct (bool_decide (latch_mode parent = LATCH_Q)); intros [= <-]; discriminate.
Qed.

Lemma latch_frame_rc idx mode conditional page b rc page' b' :
  bf_tree_m.latch_frame idx mode conditional page b = Some (rc, page', b') ->
  rc = RCOK \/ rc = RC LatchTryFailure.
Proof.
  unfold bf_tree_m.latch_frame.
  destruct (bf_tree_m._control_blocks b !! idx) as [cb|]; cbn; [|discriminate].
  destruct (latch_acquire mode (_latch cb)); [intros [= <- _ _]; auto|].
  destruct conditional; [intros [= <- _ _]; auto | discriminate].
Qed.

Lemma _fix_nonswizzled_rc page vol shpid mode conditional virgin_page b rc page' b' :
  bf_tree_m._fix_nonswizzled page vol shpid mode conditional virgin_page b
  = Some (rc, page', b') ->
  rc = RCOK \/ rc = RC LatchTryFailure \/ rc = RC OutOfBuffer \/ rc = RC IOError.
Proof.
  unfold bf_tree_m._fix_nonswizzled.
  destruct (bf_tree_m.lookup_frame _ b) as [idx|].
  { intros H. apply latch_frame_rc in H. tauto. }
  destruct (bf_tree_m._freelist b) as [|idx rest]; [intros [= <- _ _]; auto|].
  destruct (if virgin_page then _ else _) as [image|]; [|intros [= <- _ _]; auto].
  destruct (bf_tree_m._control_blocks b !! idx) as [old|]; cbn; [|discriminate].
  intros H. apply latch_frame_rc in H. tauto.
Qed.

Lemma bf_fix_nonroot_rc page parent vol shpid mode conditional virgin_page b rc page' b' :
  bf_tree_m.fix_nonroot page parent vol shpid mode conditional virgin_page b
  = Some (rc, page', b') ->
  rc = RCOK \/ rc = RC LatchTryFailure \/ rc = RC OutOfBuffer \/ rc = RC IOError.
Proof.
  unfold bf_tree_m.fix_nonroot. destruct (is_swizzled_pointer shpid).
  - intros H. apply latch_frame_rc in H. tauto.
  - apply _fix_nonswizzled_rc.
Qed.

(** Where [eLATCHQFAIL] does come from: a fix in Q mode (requested, or
    forced by [force_Q_fixing > 1] on an SH request) or under a Q-latched
    parent, on a virgin page or a pointer that is not swizzled.  The
    handle and the storage manager then are as [unfix] left them. *)
Lemma fix_nonroot_LatchQFail parent vol shpid mode conditional virgin_page h s rc h' s' :
  fix_nonroot parent vol shpid mode conditional virgin_page h s = Some (rc, h', s') ->
  (rc = RC eLATCHQFAIL <->
     (mode = LATCH_Q \/ (1 < force_Q_fixing s /\ mode = LATCH_SH)
      \/ latch_mode parent = LATCH_Q)
     /\ (virgin_page = true \/ is_swizzled_pointer shpid = false))
  /\ (rc = RC eLATCHQFAIL -> (h', s') = unfix h s /\ _mode h' = LATCH_NL).
Proof.
  unfold fix_nonroot.
  pose proof (unfix_mode h s) as Hmode.
  destruct (unfix h s) as [h1 s1]. cbn in Hmode.
  set (mode' := if bool_decide (1 < force_Q_fixing s) && bool_decide (mode = LATCH_SH)
                then LATCH_Q else mode).
  assert (Hq : bool_decide (mode' = LATCH_Q) = true <->
               mode = LATCH_Q \/ (1 < force_Q_fixing s /\ mode = LATCH_SH)).
  { subst mode'. rewrite bool_decide_eq_true.
    destruct (bool_decide (1 < force_Q_fixing s)) eqn:Hf;
      [apply bool_decide_eq_true in Hf | apply bool_decide_eq_false in Hf];
      destruct mode; cbn; split; intros; try tauto; try discriminate;
      intuition (try discriminate; try lia). }
  destruct (bool_decide (mode' = LATCH_Q) || bool_decide (latch_mode parent = LATCH_Q))
    eqn:Hqish.
  - assert (Hqish' : mode = LATCH_Q \/ (1 < force_Q_fixing s /\ mode = LATCH_SH)
                     \/ latch_mode parent = LATCH_Q).
    { apply orb_true_iff in Hqish as [H|H];
        [apply Hq in H; tauto | apply bool_decide_eq_true in H; tauto]. }
    destruct (virgin_page || negb (is_swizzled_pointer shpid)) eqn:Hv.
    + intros [= <- <- <-]. split; [|auto].
      split; [intros _|reflexivity]. split; [exact Hqish'|].
      apply orb_true_iff in Hv as [Hv|Hv]; [auto|].
      right. now apply negb_true_iff.
    + apply orb_false_iff in Hv as [Hv1 Hv2]. apply negb_false_iff in Hv2.
      unfold bf_tree_m.fix_with_Q_nonroot.
      destruct (bf_tree_m._control_blocks (bf s1) !! _) as [cb|]; cbn; [|discriminate].
      assert (Hno : rc <> RC eLATCHQFAIL ->
                    (rc = RC eLATCHQFAIL <->
                     (mode = LATCH_Q \/ (1 < force_Q_fixing s /\ mode = LATCH_SH)
                      \/ latch_mode parent = LATCH_Q)
                     /\ (virgin_page = true \/ is_swizzled_pointer shpid = false))
                    /\ (rc = RC eLATCHQFAIL -> (h', s') = (h1, s1) /\ _mode h' = LATCH_NL)).
      { intros Hrc. split; [|tauto]. split; [tauto|].
        intros [_ [->| Hs]]; [discriminate | congruence]. }
      destruct (negb (bool_decide (mode' = LATCH_Q))).
      * intros [= <- _ _]. apply Hno. discriminate.
      * unfold fix_nonroot_finish, change_possible_after_fix.
        destruct (bool_decide (latch_mode parent = LATCH_Q));
          intros [= <- _ _]; apply Hno; discriminate.
  - apply orb_false_iff in Hqish as [Hq1 Hq2].
    apply bool_decide_eq_false in Hq2.
    assert (Hq1' : ~ (mode = LATCH_Q \/ (1 < force_Q_fixing s /\ mode = LATCH_SH))).
    { intros H. apply Hq in H. congruence. }
    destruct (bf_tree_m.fix_nonroot _ _ _ _ _ _ _ _) as [[[rc0 pp] b]|] eqn:Hbf;
      cbn; [|discriminate].
    apply bf_fix_nonroot_rc in Hbf.
    assert (Hno : rc <> RC eLATCHQFAIL ->
                  (rc = RC eLATCHQFAIL <->
                   (mode = LATCH_Q \/ (1 < force_Q_fixing s /\ mode = LATCH_SH)
                    \/ latch_mode parent = LATCH_Q)
                   /\ (virgin_page = true \/ is_swizzled_pointer shpid = false))
                  /\ (rc = RC eLATCHQFAIL -> (h', s') = (h1, s1) /\ _mode h' = LATCH_NL)).
    { intros Hrc. split; [|tauto]. split; tauto. }
    destruct (is_error rc0) eqn:Herr.
    + intros [= <- _ _]. apply Hno.
      destruct Hbf as [->|[->|[->| ->]]]; discriminate.
    + unfold fix_nonroot_finish, change_possible_after_fix.
      destruct (bool_decide (latch_mode parent = LATCH_Q));
        intros [= <- _ _]; apply Hno; discriminate.
Qed.

(** C2.  A reader holds the parent (frame 1) in Q mode with ticket 0,
    taken while nobody held a latch.  A writer then fixes the parent's
    page in EX mode and unfixes it again, after which the reader's ticket
    no longer is valid.  [fix_nonroot] in Q mode on the swizzled pointer
    to the child nevertheless returns [RCOK] and leaves the child fixed:
    [change_possible_after_fix] answers [false] without looking, and the
    writer goes unnoticed. *)
Theorem fix_nonroot_misses_parent_writer :
  let parent := {| _pp := Some 1%nat; _mode := LATCH_Q; _Q_ticket := 0 |} in
  let child := {| _pp := None; _mode := LATCH_NL; _Q_ticket := 0 |} in
  let unfixed := {| _pp := None; _mode := LATCH_NL; _Q_ticket := 0 |} in
  let before := sample_sm quiet_pool in
  let s := sample_sm parent_rewritten_pool in
  handle_ticket_valid parent before = Some true
  /\ (exists writer during,
        fix_direct 1 10 LATCH_EX false false unfixed before = Some (RCOK, writer, during)
        /\ unfix writer during = (unfixed, s))
  /\ handle_ticket_valid parent s = Some false
  /\ fix_nonroot parent 1 swizzled_child LATCH_Q false false child s
     = Some (RCOK, {| _pp := Some 2%nat; _mode := LATCH_Q; _Q_ticket := 0 |}, s).
Proof.
  split; [reflexivity|]. split; [|split; reflexivity].
  eexists _, _. split; reflexivity.
Qed.

(** C4.  Starting with no latch held, a reader fixes the parent's page
    (frame 1) in SH mode and a writer fixes the child's page (frame 2) in
    EX mode.  A Q-mode [fix_nonroot] on the swizzled pointer to the child
    then obtains a ticket that is not valid, yet it returns [RCOK] with
    the child fixed in Q mode: the validity test is [if (false)]. *)
Theorem fix_nonroot_accepts_invalid_ticket :
  let unfixed := {| _pp := None; _mode := LATCH_NL; _Q_ticket := 0 |} in
  let parent := {| _pp := Some 1%nat; _mode := LATCH_SH; _Q_ticket := 0 |} in
  let writer := {| _pp := Some 2%nat; _mode := LATCH_EX; _Q_ticket := 0 |} in
  let fixed := {| _pp := Some 2%nat; _mode := LATCH_Q; _Q_ticket := 1 |} in
  let s := sample_sm writer_on_child_pool in
  (exists during,
     fix_direct 1 10 LATCH_SH false false unfixed (sample_sm quiet_pool)
     = Some (RCOK, parent, during)
     /\ fix_direct 1 11 LATCH_EX false false unfixed during = Some (RCOK, writer, s))
  /\ fix_nonroot parent 1 swizzled_child LATCH_Q false false unfixed s
     = Some (RCOK, fixed, s)
  /\ handle_ticket_valid fixed s = Some false.
Proof.
  split; [|split; reflexivity].
  eexists. split; reflexivity.
Qed.

End FixNonroot.

(** ** fixable_page_h: the to-be-deleted flag *)

Section ToBeDeleted.

Import fixable_page_h.

(** The flag is one bit of [page_flags]; [bit] is its position. *)
Variable bit : Z.
Hypothesis bit_nonneg : 0 <= bit.

Local Abbreviation mask := (2 ^ bit).
Local Abbreviation toggle := (fun flags => Z.lxor flags mask).

Lemma flag_test flags : (Z.land flags mask =? 0) = negb (Z.testbit flags bit).
Proof. now apply land_pow2_testbit. Qed.

Lemma toggle_bit flags n :
  0 <= n -> Z.testbit (Z.lxor flags mask) n = xorb (Z.testbit flags n) (bit =? n).
Proof. intros Hn. now rewrite Z.lxor_spec, Z.pow2_bits_eqb. Qed.

Lemma toggle_twice flags : Z.lxor (Z.lxor flags mask) mask = flags.
Proof. now rewrite Z.lxor_assoc, Z.lxor_nilpotent, Z.lxor_0_r. Qed.

Lemma page_of_update f h s pg :
  page_of h s = Some pg ->
  page_of h (update_page_flags f h s) = Some (set_page_flags f pg).
Proof.
  unfold page_of, update_page_flags. destruct (_pp h) as [idx|]; cbn; [|discriminate].
  intros Hpg. now rewrite list_lookup_alter_eq, Hpg.
Qed.

Lemma page_of_set_dirty h h' s : page_of h (set_dirty h' s) = page_of h s.
Proof.
  unfold page_of, set_dirty, bf_tree_m.set_dirty.
  destruct (negb _); [|reflexivity]. destruct (_pp h'); reflexivity.
Qed.

Lemma page_of_log h p s : page_of h (log_page_set_to_be_deleted p s).2 = page_of h s.
Proof. unfold log_page_set_to_be_deleted. destruct (log_space s); reflexivity. Qed.

Lemma dirty_at_set_dirty h s cb :
  is_latched h = true ->
  bf_tree_m.get_cb (bf s) (_pp h) = Some cb ->
  dirty_at h (set_dirty h s) = Some true.
Proof.
  unfold is_latched, dirty_at, set_dirty, bf_tree_m.get_cb, bf_tree_m.set_dirty.
  destruct h as [[idx|] mode t]; cbn; [|discriminate].
  intros Hmode Hcb.
  destruct mode; try discriminate; vm_compute bool_decide; cbn;
    now rewrite list_lookup_alter_eq, Hcb.
Qed.

Lemma get_cb_update f h s p :
  bf_tree_m.get_cb (bf (update_page_flags f h s)) p = bf_tree_m.get_cb (bf s) p.
Proof. unfold update_page_flags. destruct (_pp h); reflexivity. Qed.

Lemma get_cb_log p q s :
  bf_tree_m.get_cb (bf (log_page_set_to_be_deleted q s).2) p = bf_tree_m.get_cb (bf s) p.
Proof. unfold log_page_set_to_be_deleted. destruct (log_space s); reflexivity. Qed.

(** A call on a page whose flag is set changes nothing. *)
Lemma set_to_be_deleted_when_set log_it h s pg :
  page_of h s = Some pg -> Z.testbit (page_flags pg) bit = true ->
  set_to_be_deleted mask log_it h s = Some (RCOK, s).
Proof.
  intros Hpg Hset. unfold set_to_be_deleted.
  rewrite Hpg. cbn. now rewrite flag_test, Hset.
Qed.

(** A call on a page whose flag is clear: what comes back. *)
Lemma set_to_be_deleted_when_clear log_it h s pg :
  page_of h s = Some pg -> Z.testbit (page_flags pg) bit = false ->
  set_to_be_deleted mask log_it h s
  = if log_it && bool_decide (log_space s = 0%nat) then Some (RC eOUTOFLOGSPACE, s)
    else
      let s1 := if log_it then (log_page_set_to_be_deleted (_pp h) s).2 else s in
      Some (RCOK, set_dirty h (update_page_flags toggle h s1)).
Proof.
  intros Hpg Hclear. unfold set_to_be_deleted.
  rewrite Hpg. cbn. rewrite flag_test, Hclear. cbn.
  destruct log_it; cbn; [|reflexivity].
  unfold log_page_set_to_be_deleted. destruct (log_space s); reflexivity.
Qed.

Lemma set_to_be_deleted_page log_it h s pg rc s' :
  page_of h s = Some pg ->
  set_to_be_deleted mask log_it h s = Some (rc, s') ->
  page_of h s' =
    Some (if negb (Z.testbit (page_flags pg) bit) && negb (is_error rc)
          then set_page_flags toggle pg else pg).
Proof.
  intros Hpg. destruct (Z.testbit (page_flags pg) bit) eqn:Hflag.
  - rewrite (set_to_be_deleted_when_set _ _ _ _ Hpg Hflag).
    intros [= <- <-]. exact Hpg.
  - rewrite (set_to_be_deleted_when_clear _ _ _ _ Hpg Hflag).
    destruct (log_it && _).
    + intros [= <- <-]. exact Hpg.
    + cbn. intros [= <- <-]. cbn. rewrite page_of_set_dirty.
      apply page_of_update. destruct log_it; [now rewrite page_of_log | exact Hpg].
Qed.

Lemma unset_to_be_deleted_page h s pg :
  page_of h s = Some pg ->
  exists s', unset_to_be_deleted mask h s = Some s'
    /\ page_of h s' =
         Some (if Z.testbit (page_flags pg) bit then set_page_flags toggle pg else pg)
    /\ (Z.testbit (page_flags pg) bit = false -> s' = s).
Proof.
  intros Hpg. unfold unset_to_be_deleted. rewrite Hpg. cbn.
  rewrite flag_test, negb_involutive.
  destruct (Z.testbit (page_flags pg) bit); eexists; (split; [reflexivity|]).
  - split; [now apply page_of_update | discriminate].
  - split; [exact Hpg | reflexivity].
Qed.

Lemma is_to_be_deleted_page h s pg :
  page_of h s = Some pg ->
  is_to_be_deleted mask h s = Some (Z.testbit (page_flags pg) bit).
Proof.
  intros Hpg. unfold is_to_be_deleted. rewrite Hpg. cbn.
  now rewrite flag_test, negb_involutive.
Qed.

Lemma toggled_flag pg : Z.testbit (page_flags (set_page_flags toggle pg)) bit
                        = negb (Z.testbit (page_flags pg) bit).
Proof.
  cbn. rewrite toggle_bit by assumption. rewrite Z.eqb_refl.
  now destruct (Z.testbit (page_flags pg) bit).
Qed.

Lemma toggled_other_bits pg n :
  0 <= n -> n <> bit ->
  Z.testbit (page_flags (set_page_flags toggle pg)) n = Z.testbit (page_flags pg) n.
Proof.
  intros Hn Hne. cbn. rewrite toggle_bit by assumption.
  destruct (Z.eqb_spec bit n) as [->|_]; [contradiction|apply xorb_false_r].
Qed.

Lemma set_to_be_deleted_dirties log_it h s pg cb s' :
  is_latched h = true ->
  page_of h s = Some pg -> bf_tree_m.get_cb (bf s) (_pp h) = Some cb ->
  Z.testbit (page_flags pg) bit = false ->
  set_to_be_deleted mask log_it h s = Some (RCOK, s') ->
  dirty_at h s' = Some true.
Proof.
  intros Hlatched Hpg Hcb Hclear.
  rewrite (set_to_be_deleted_when_clear _ _ _ _ Hpg Hclear).
  destruct (log_it && _); [discriminate|]. cbn. intros [= <-].
  apply dirty_at_set_dirty with cb; [assumption|].
  rewrite get_cb_update. destruct log_it; [now rewrite get_cb_log | assumption].
Qed.

End ToBeDeleted.

Section ToBeDeletedLaws.

Import fixable_page_h.

(** C10, as amended.  On a latched page whose flag is bit [bit] of
    [page_flags]:
    - when the flag is set, [set_to_be_deleted] returns [RCOK] and
      changes nothing: no log record, no dirtying;
    - when the flag is clear, a call that returns [RCOK] (every call
      without logging does) leaves the flag set and the page dirty;
    - after a call that returned [RCOK], a further call changes nothing;
    - [unset_to_be_deleted] leaves the flag clear, and changes nothing
      when it already was;
    - [unset_to_be_deleted] after [set_to_be_deleted] leaves the flag
      clear; this gives back the original [page_flags] if the flag was
      clear at the start;
    - neither function changes another bit of [page_flags]. *)
Theorem to_be_deleted_flag_laws bit h s pg cb :
  0 <= bit ->
  is_latched h = true ->
  page_of h s = Some pg ->
  bf_tree_m.get_cb (bf s) (_pp h) = Some cb ->
  (Z.testbit (page_flags pg) bit = true ->
     forall log_it, set_to_be_deleted (2 ^ bit) log_it h s = Some (RCOK, s))
  /\ (Z.testbit (page_flags pg) bit = false ->
       (exists s', set_to_be_deleted (2 ^ bit) false h s = Some (RCOK, s'))
       /\ forall log_it s',
            set_to_be_deleted (2 ^ bit) log_it h s = Some (RCOK, s') ->
            is_to_be_deleted (2 ^ bit) h s' = Some true
            /\ dirty_at h s' = Some true)
  /\ (forall log_it log_it' s',
       set_to_be_deleted (2 ^ bit) log_it h s = Some (RCOK, s') ->
       set_to_be_deleted (2 ^ bit) log_it' h s' = Some (RCOK, s'))
  /\ (exists s', unset_to_be_deleted (2 ^ bit) h s = Some s'
                /\ is_to_be_deleted (2 ^ bit) h s' = Some false
                /\ (Z.testbit (page_flags pg) bit = false -> s' = s))
  /\ (forall log_it rc s1,
       set_to_be_deleted (2 ^ bit) log_it h s = Some (rc, s1) ->
       exists s2, unset_to_be_deleted (2 ^ bit) h s1 = Some s2
                  /\ is_to_be_deleted (2 ^ bit) h s2 = Some false
                  /\ (Z.testbit (page_flags pg) bit = false ->
                      flags_at h s2 = Some (page_flags pg)))
  /\ (forall log_it rc s1,
       set_to_be_deleted (2 ^ bit) log_it h s = Some (rc, s1) ->
       exists flags, flags_at h s1 = Some flags
         /\ forall n, 0 <= n -> n <> bit ->
              Z.testbit flags n = Z.testbit (page_flags pg) n)
  /\ (forall s1,
       unset_to_be_deleted (2 ^ bit) h s = Some s1 ->
       exists flags, flags_at h s1 = Some flags
         /\ forall n, 0 <= n -> n <> bit ->
              Z.testbit flags n = Z.testbit (page_flags pg) n).
Proof.
  intros Hbit Hlatched Hpg Hcb.
  split; [|split; [|split; [|split; [|split; [|split]]]]].
  - intros Hset log_it. now apply set_to_be_deleted_when_set with pg.
  - intros Hclear. split.
    + rewrite (set_to_be_deleted_when_clear bit Hbit false h s pg Hpg Hclear).
      cbn. eauto.
    + intros log_it s' Hcall. split.
      * pose proof (set_to_be_deleted_page bit Hbit _ _ _ _ _ _ Hpg Hcall) as Hpg'.
        rewrite Hclear in Hpg'. cbn in Hpg'.
        rewrite (is_to_be_deleted_page bit Hbit _ _ _ Hpg').
        pose proof (toggled_flag bit Hbit pg) as Hflag. cbn in Hflag.
        cbn. rewrite Hflag, Hclear. reflexivity.
      * now apply (set_to_be_deleted_dirties bit Hbit log_it h s pg cb s').
  - intros log_it log_it' s' Hcall.
    pose proof (set_to_be_deleted_page bit Hbit _ _ _ _ _ _ Hpg Hcall) as Hpg'.
    destruct (Z.testbit (page_flags pg) bit) eqn:Hflag; cbn in Hpg'.
    + rewrite (set_to_be_deleted_when_set bit Hbit _ _ _ _ Hpg Hflag) in Hcall.
      injection Hcall as <-.
      now apply set_to_be_deleted_when_set with pg.
    + apply set_to_be_deleted_when_set with (set_page_flags (fun f => Z.lxor f (2 ^ bit)) pg);
        [assumption..|].
      rewrite (toggled_flag bit Hbit pg), Hflag. reflexivity.
  - destruct (unset_to_be_deleted_page bit Hbit h s pg Hpg) as (s' & Hcall & Hpg' & Hsame).
    exists s'. split; [assumption|]. split; [|assumption].
    rewrite (is_to_be_deleted_page bit Hbit _ _ _ Hpg').
    destruct (Z.testbit (page_flags pg) bit) eqn:Hflag; [|now rewrite Hflag].
    rewrite (toggled_flag bit Hbit pg), Hflag. reflexivity.
  - intros log_it rc s1 Hcall.
    pose proof (set_to_be_deleted_page bit Hbit _ _ _ _ _ _ Hpg Hcall) as Hpg1.
    destruct (unset_to_be_deleted_page bit Hbit h s1 _ Hpg1) as (s2 & Hcall2 & Hpg2 & _).
    exists s2. split; [assumption|].
    rewrite (is_to_be_deleted_page bit Hbit _ _ _ Hpg2).
    unfold flags_at. rewrite Hpg2. clear Hpg1 Hpg2 Hcall Hcall2.
    pose proof (toggled_flag bit Hbit pg) as Htog.
    destruct (Z.testbit (page_flags pg) bit) eqn:Hflag; cbn [negb andb] in *.
    + rewrite Hflag, Htog. split; [reflexivity | discriminate].
    + destruct (is_error rc); cbn [negb andb].
      * rewrite Hflag. split; [now rewrite Hflag | reflexivity].
      * rewrite Htog.
        pose proof (toggled_flag bit Hbit (set_page_flags (fun f => Z.lxor f (2 ^ bit)) pg))
          as Htog2.
        rewrite Htog in Htog2. rewrite Htog2. split; [reflexivity|].
        intros _. cbn. now rewrite toggle_twice.
  - intros log_it rc s1 Hcall.
    pose proof (set_to_be_deleted_page bit Hbit _ _ _ _ _ _ Hpg Hcall) as Hpg1.
    unfold flags_at. rewrite Hpg1. cbn. eexists. split; [reflexivity|].
    intros n Hn Hne. destruct (negb _ && negb _); [|reflexivity].
    now apply toggled_other_bits.
  - intros s1 Hcall.
    destruct (unset_to_be_deleted_page bit Hbit h s pg Hpg) as (s' & Hcall' & Hpg' & _).
    rewrite Hcall in Hcall'. injection Hcall' as <-.
    unfold flags_at. rewrite Hpg'. cbn. eexists. split; [reflexivity|].
    intros n Hn Hne. destruct (Z.testbit (page_flags pg) bit); [|reflexivity].
    now apply toggled_other_bits.
Qed.

Lemma to_be_deleted_flag_laws_witness :
  let h := {| _pp := Some 2%nat; _mode := LATCH_EX; _Q_ticket := 0 |} in
  let s := sample_sm (child_latched_pool 0) in
  (exists s', set_to_be_deleted (2 ^ 0) false h s = Some (RCOK, s'))
  /\ (forall log_it s',
        set_to_be_deleted (2 ^ 0) log_it h s = Some (RCOK, s') ->
        is_to_be_deleted (2 ^ 0) h s' = Some true /\ dirty_at h s' = Some true)
  /\ (forall log_it rc s1,
        set_to_be_deleted (2 ^ 0) log_it h s = Some (rc, s1) ->
        exists s2, unset_to_be_deleted (2 ^ 0) h s1 = Some s2
                   /\ is_to_be_deleted (2 ^ 0) h s2 = Some false
                   /\ flags_at h s2 = Some 0).
Proof.
  intros h s.
  destruct (to_be_deleted_flag_laws 0 h s {| page_flags := 0 |}
              (resident_cb 1 11 1 (held_latch LATCH_EX 1)))
    as (_ & Hclear & _ & _ & Hround & _); [lia | reflexivity..|].
  destruct (Hclear eq_refl) as [Hok Hflag].
  split; [exact Hok|]. split; [exact Hflag|].
  intros log_it rc s1 Hcall.
  destruct (Hround log_it rc s1 Hcall) as (s2 & Hunset & Hoff & Hback).
  exists s2. split; [exact Hunset|]. split; [exact Hoff|].
  exact (Hback eq_refl).
Defined.

(** C10 as stated fails on a page whose flag is set at the start:
    [set_to_be_deleted] leaves the flags word at 1, the following
    [unset_to_be_deleted] clears the flag, and the word ends at 0, not at
    its original value. *)
Lemma unset_after_set_loses_a_set_flag :
  let h := {| _pp := Some 2%nat; _mode := LATCH_EX; _Q_ticket := 0 |} in
  let s := sample_sm (child_latched_pool 1) in
  is_latched h = true
  /\ flags_at h s = Some 1
  /\ set_to_be_deleted 1 true h s = Some (RCOK, s)
  /\ exists s2, unset_to_be_deleted 1 h s = Some s2
                /\ flags_at h s2 = Some 0
                /\ flags_at h s2 <> flags_at h s.
Proof.
  repeat split. eexists. split; [reflexivity|]. split; [reflexivity | discriminate].
Qed.

End ToBeDeletedLaws.

(** ** fix_direct *)

Section FixDirect.

Import fixable_page_h.

(** Rewriting control blocks in place, identity of the pages kept, keeps
    the pool consistent. *)
Lemma consistent_same_pages b cbs' :
  length cbs' = length (bf_tree_m._control_blocks b) ->
  (forall idx cb, bf_tree_m._control_blocks b !! idx = Some cb ->
     exists cb', cbs' !! idx = Some cb'
                 /\ _pid_vol cb' = _pid_vol cb /\ _pid_shpid cb' = _pid_shpid cb) ->
  bf_tree_m.consistent b ->
  bf_tree_m.consistent (bf_tree_m.with_cbs (fun _ => cbs') b).
Proof.
  intros Hlen Hsame (Hht & Hfree & Hnodup).
  split; [|split]; cbn; [| now rewrite Hlen | assumption].
  intros key idx Hkey.
  destruct (Hht key idx Hkey) as (cb & Hcb & Hk & Hv & Hp & Hnot).
  destruct (Hsame idx cb Hcb) as (cb' & Hcb' & Hvol & Hshpid).
  exists cb'. rewrite Hvol, Hshpid. auto.
Qed.

Lemma consistent_alter f idx b :
  (forall cb, _pid_vol (f cb) = _pid_vol cb /\ _pid_shpid (f cb) = _pid_shpid cb) ->
  bf_tree_m.consistent b ->
  bf_tree_m.consistent (bf_tree_m.with_cbs (alter f idx) b).
Proof.
  intros Hf Hb.
  apply (consistent_same_pages b (alter f idx (bf_tree_m._control_blocks b)));
    [apply length_alter | | assumption].
  intros i cb Hcb. destruct (decide (idx = i)) as [->|Hne].
  - exists (f cb). rewrite list_lookup_alter_eq, Hcb. split; [reflexivity | apply Hf].
  - exists cb. rewrite list_lookup_alter_ne by assumption. auto.
Qed.

Lemma consistent_bf_unfix p b :
  bf_tree_m.consistent b -> bf_tree_m.consistent (bf_tree_m.unfix p b).
Proof.
  destruct p as [idx|]; cbn; [|auto].
  apply consistent_alter. intros cb. split; reflexivity.
Qed.

Lemma consistent_unfix h s :
  bf_tree_m.consistent (bf s) -> bf_tree_m.consistent (bf (unfix h s).2).
Proof.
  intros Hb. unfold unfix.
  destruct (negb (bool_decide (_mode h = LATCH_NL))); [|exact Hb].
  destruct (negb (bool_decide (_mode h = LATCH_Q))); [|exact Hb].
  now apply consistent_bf_unfix.
Qed.

(** A successful [latch_frame] returns the frame it was asked for, and
    that frame's control block still names the same page. *)
Lemma latch_frame_ok idx mode conditional page b page' b' :
  bf_tree_m.latch_frame idx mode conditional page b = Some (RCOK, page', b') ->
  exists cb cb',
    bf_tree_m._control_blocks b !! idx = Some cb
    /\ page' = Some idx
    /\ bf_tree_m._control_blocks b' !! idx = Some cb'
    /\ _pid_vol cb' = _pid_vol cb /\ _pid_shpid cb' = _pid_shpid cb.
Proof.
  unfold bf_tree_m.latch_frame.
  destruct (bf_tree_m._control_blocks b !! idx) as [cb|] eqn:Hcb; cbn; [|discriminate].
  destruct (latch_acquire mode (_latch cb)) as [l|].
  - intros [= <- <-]. exists cb, (cb_add_pin 1 (cb_set_latch l cb)).
    cbn. rewrite list_lookup_insert_eq by (now apply lookup_lt_Some with cb).
    repeat split.
  - destruct conditional; discriminate.
Qed.

Lemma latch_frame_consistent idx mode conditional page b rc page' b' :
  bf_tree_m.latch_frame idx mode conditional page b = Some (rc, page', b') ->
  bf_tree_m.consistent b -> bf_tree_m.consistent b'.
Proof.
  unfold bf_tree_m.latch_frame.
  destruct (bf_tree_m._control_blocks b !! idx) as [cb|] eqn:Hcb; cbn; [|discriminate].
  destruct (latch_acquire mode (_latch cb)) as [l|].
  - intros [= <- <- <-] Hb.
    apply (consistent_same_pages b); [apply length_insert | | assumption].
    intros i cbi Hi. destruct (decide (idx = i)) as [->|Hne].
    + rewrite list_lookup_insert_eq by (now apply lookup_lt_Some with cb).
      rewrite Hcb in Hi. injection Hi as <-. eexists. repeat split.
    + rewrite list_lookup_insert_ne by assumption. eauto.
  - destruct conditional; [intros [= <- <- <-]; auto | discriminate].
Qed.

Lemma lookup_frame_Some key b idx :
  bf_tree_m.lookup_frame key b = Some idx -> bf_tree_m._hashtable b !! key = Some idx.
Proof.
  unfold bf_tree_m.lookup_frame.
  destruct (bf_tree_m._hashtable b !! key) as [i|]; cbn; [|discriminate].
  destruct (bf_tree_m._control_blocks b !! i) as [cb|]; cbn; [|discriminate].
  destruct (_pin_cnt cb <? 0); congruence.
Qed.

(** Loading a page into the first free frame keeps the pool consistent. *)
Lemma consistent_install b idx rest old vol shpid cb image :
  bf_tree_m.consistent b ->
  bf_tree_m._freelist b = idx :: rest ->
  bf_tree_m._control_blocks b !! idx = Some old ->
  is_uint32 vol -> is_uint32 shpid ->
  _pid_vol cb = vol -> _pid_shpid cb = shpid ->
  bf_tree_m.consistent
    {| bf_tree_m._control_blocks := <[idx := cb]> (bf_tree_m._control_blocks b);
       bf_tree_m._buffer := <[idx := image]> (bf_tree_m._buffer b);
       bf_tree_m._hashtable := <[bf_key vol shpid := idx]> (bf_tree_m._hashtable b);
       bf_tree_m._freelist := rest;
       bf_tree_m._volumes := bf_tree_m._volumes b |}.
Proof.
  intros (Hht & Hfree & Hnodup) Hlist Hold Hvol Hshpid Hcbv Hcbp.
  rewrite Hlist in Hfree, Hnodup, Hht.
  apply NoDup_cons in Hnodup as [Hfresh Hnodup].
  assert (Hlt : (idx < length (bf_tree_m._control_blocks b))%nat)
    by (now apply lookup_lt_Some with old).
  split; [|split]; cbn; [| |assumption].
  - intros key i Hkey. destruct (decide (bf_key vol shpid = key)) as [<-|Hne].
    + rewrite lookup_insert_eq in Hkey. injection Hkey as <-.
      exists cb. rewrite list_lookup_insert_eq by assumption.
      rewrite Hcbv, Hcbp. auto.
    + rewrite lookup_insert_ne in Hkey by assumption.
      destruct (Hht key i Hkey) as (cbi & Hcbi & Hk & Hv & Hp & Hnot).
      apply not_elem_of_cons in Hnot as [Hi Hnot].
      exists cbi. rewrite list_lookup_insert_ne by congruence. auto.
  - intros i Hi. rewrite length_insert. apply Hfree. apply elem_of_cons. now right.
Qed.

Lemma _fix_nonswizzled_consistent page vol shpid mode conditional virgin_page b rc page' b' :
  is_uint32 vol -> is_uint32 shpid ->
  bf_tree_m.consistent b ->
  bf_tree_m._fix_nonswizzled page vol shpid mode conditional virgin_page b
  = Some (rc, page', b') ->
  bf_tree_m.consistent b'.
Proof.
  intros Hvol Hshpid Hb. unfold bf_tree_m._fix_nonswizzled.
  destruct (bf_tree_m.lookup_frame _ b) as [idx|].
  { intros H. now apply latch_frame_consistent in H. }
  destruct (bf_tree_m._freelist b) as [|idx rest] eqn:Hlist; [intros [= <- <- <-]; auto|].
  destruct (if virgin_page then _ else _) as [image|]; [|intros [= <- <- <-]; auto].
  destruct (bf_tree_m._control_blocks b !! idx) as [old|] eqn:Hold; cbn; [|discriminate].
  intros H. apply latch_frame_consistent in H; [assumption|].
  now apply consistent_install with old.
Qed.

(** A successful fix of a page id that is not swizzled returns a frame
    whose control block carries the volume id and the page id asked
    for. *)
Lemma _fix_nonswizzled_ok page vol shpid mode conditional virgin_page b page' b' :
  is_uint32 vol -> is_uint32 shpid ->
  bf_tree_m.consistent b ->
  bf_tree_m._fix_nonswizzled page vol shpid mode conditional virgin_page b
  = Some (RCOK, page', b') ->
  exists idx cb, page' = Some idx
    /\ bf_tree_m._control_blocks b' !! idx = Some cb
    /\ _pid_vol cb = vol /\ _pid_shpid cb = shpid.
Proof.
  intros Hvol Hshpid Hb. unfold bf_tree_m._fix_nonswizzled.
  destruct (bf_tree_m.lookup_frame _ b) as [idx|] eqn:Hlookup.
  - intros H. apply latch_frame_ok in H as (cb & cb' & Hcb & -> & Hcb' & Hv & Hp).
    apply lookup_frame_Some in Hlookup.
    destruct Hb as (Hht & _).
    destruct (Hht _ _ Hlookup) as (cb0 & Hcb0 & Hkey & Hv0 & Hp0 & _).
    rewrite Hcb in Hcb0. injection Hcb0 as <-.
    apply bf_key_inj in Hkey as [Hveq Hpeq]; [|assumption..].
    exists idx, cb'. rewrite Hv, Hp. auto.
  - destruct (bf_tree_m._freelist b) as [|idx rest]; [discriminate|].
    destruct (if virgin_page then _ else _) as [image|]; [|discriminate].
    destruct (bf_tree_m._control_blocks b !! idx) as [old|] eqn:Hold; cbn; [|discriminate].
    intros H. apply latch_frame_ok in H as (cb & cb' & Hcb & -> & Hcb' & Hv & Hp).
    cbn in Hcb.
    rewrite list_lookup_insert_eq in Hcb by (now apply lookup_lt_Some with old).
    injection Hcb as <-. cbn in Hv, Hp.
    exists idx, cb'. auto.
Qed.

(** A conditional fix of a page id that is not swizzled always comes
    back in a consistent pool: it waits for nothing. *)
Lemma latch_frame_conditional idx mode page b cb :
  bf_tree_m._control_blocks b !! idx = Some cb ->
  is_Some (bf_tree_m.latch_frame idx mode true page b).
Proof.
  intros Hcb. unfold bf_tree_m.latch_frame. rewrite Hcb. cbn.
  destruct (latch_acquire mode (_latch cb)); eauto.
Qed.

Lemma _fix_nonswizzled_conditional page vol shpid mode virgin_page b :
  bf_tree_m.consistent b ->
  is_Some (bf_tree_m._fix_nonswizzled page vol shpid mode true virgin_page b).
Proof.
  intros (_ & Hfree & _). unfold bf_tree_m._fix_nonswizzled.
  destruct (bf_tree_m.lookup_frame _ b) as [idx|] eqn:Hlookup.
  - unfold bf_tree_m.lookup_frame in Hlookup.
    destruct (bf_tree_m._hashtable b !! _) as [i|]; cbn in Hlookup; [|discriminate].
    destruct (bf_tree_m._control_blocks b !! i) as [cb|] eqn:Hcb;
      cbn in Hlookup; [|discriminate].
    destruct (_pin_cnt cb <? 0); [discriminate|]. injection Hlookup as <-.
    now apply latch_frame_conditional with cb.
  - destruct (bf_tree_m._freelist b) as [|idx rest]; [eauto|].
    destruct (if virgin_page then _ else _) as [image|]; [|eauto].
    destruct (lookup_lt_is_Some_2 (bf_tree_m._control_blocks b) idx) as [old Hold].
    { apply Hfree. apply elem_of_cons. now left. }
    rewrite Hold. cbn. eapply latch_frame_conditional. cbn.
    apply list_lookup_insert_eq. now apply lookup_lt_Some with old.
Qed.

Ltac uint32_by_computation :=
  unfold is_uint32; split; [apply Z.leb_le | apply Z.ltb_lt]; reflexivity.

Lemma sample_pool_consistent parent_pin parent_latch child_pin child_latch child_flags :
  bf_tree_m.consistent
    (sample_pool (resident_cb 1 10 parent_pin parent_latch)
                 (resident_cb 1 11 child_pin child_latch) child_flags).
Proof.
  split; [|split]; cbn.
  - intros key idx Hkey.
    apply lookup_insert_Some in Hkey as [[<- <-]|[_ Hkey]];
      [|apply lookup_insert_Some in Hkey as [[<- <-]|[_ Hkey]]].
    + eexists. split; [reflexivity|]. cbn.
      repeat split; try reflexivity; try discriminate.
      intros Hin. apply list_elem_of_singleton in Hin. discriminate.
    + eexists. split; [reflexivity|]. cbn.
      repeat split; try reflexivity; try discriminate.
      intros Hin. apply list_elem_of_singleton in Hin. discriminate.
    + rewrite lookup_empty in Hkey. discriminate.
  - intros idx Hin. apply list_elem_of_singleton in Hin. subst idx. lia.
  - apply NoDup_singleton.
Qed.

(** C3, as amended.  Volume id and page id are 32-bit values and the
    pool is consistent.  A request in Q mode is turned down with
    [eLATCHQFAIL] before the pool is asked.  For every other mode:
    - a [shpid] with the swizzle bit set is answered with
      [eBF_DIRECTFIX_SWIZZLED_PTR]; handle and storage manager are as
      [unfix] left them, the handle in mode [LATCH_NL];
    - a [shpid] without the bit goes on to the pool's lookup: a
      conditional fix always comes back, the answer never is
      [eBF_DIRECTFIX_SWIZZLED_PTR], the pool stays consistent, and on
      [RCOK] the handle holds the requested mode and points to a frame
      whose control block carries exactly the requested volume id and
      page id. *)
Theorem fix_direct_checks_swizzle_bit vol shpid mode conditional virgin_page h s :
  is_uint32 vol -> is_uint32 shpid ->
  bf_tree_m.consistent (bf s) ->
  (mode = LATCH_Q ->
     fix_direct vol shpid mode conditional virgin_page h s
     = Some (RC eLATCHQFAIL, (unfix h s).1, (unfix h s).2))
  /\ (mode <> LATCH_Q -> is_swizzled_pointer shpid = true ->
       fix_direct vol shpid mode conditional virgin_page h s
       = Some (RC eBF_DIRECTFIX_SWIZZLED_PTR, (unfix h s).1, (unfix h s).2)
       /\ _mode (unfix h s).1 = LATCH_NL)
  /\ (mode <> LATCH_Q -> is_swizzled_pointer shpid = false ->
       (conditional = true ->
        is_Some (fix_direct vol shpid mode conditional virgin_page h s))
       /\ forall rc h' s',
         fix_direct vol shpid mode conditional virgin_page h s = Some (rc, h', s') ->
         rc <> RC eBF_DIRECTFIX_SWIZZLED_PTR
         /\ bf_tree_m.consistent (bf s')
         /\ (rc = RCOK ->
             _mode h' = mode
             /\ exists idx cb,
                  _pp h' = Some idx
                  /\ bf_tree_m._control_blocks (bf s') !! idx = Some cb
                  /\ _pid_vol cb = vol /\ _pid_shpid cb = shpid)).
Proof.
  intros Hvol Hshpid Hcons.
  pose proof (unfix_mode h s) as Hmode.
  pose proof (consistent_unfix h s Hcons) as Hcons1.
  unfold fix_direct. destruct (unfix h s) as [h1 s1]. cbn in Hmode, Hcons1 |- *.
  split; [|split].
  - intros ->. reflexivity.
  - intros Hq Hswz. rewrite bool_decide_eq_false_2 by assumption.
    unfold bf_tree_m.fix_direct. rewrite Hswz. cbn.
    split; [|assumption]. destruct h1, s1 as [b l sp f]; destruct b. reflexivity.
  - intros Hq Hswz. rewrite bool_decide_eq_false_2 by assumption.
    unfold bf_tree_m.fix_direct. rewrite Hswz. split.
    { intros ->.
      destruct (_fix_nonswizzled_conditional (_pp h1) vol shpid mode virgin_page
                  (bf s1) Hcons1) as [[[rc0 pp] b] ->].
      cbn. destruct (is_error rc0); eauto. }
    intros rc h' s'.
    destruct (bf_tree_m._fix_nonswizzled _ _ _ _ _ _ _) as [[[rc0 pp] b]|] eqn:Hfix;
      cbn; [|discriminate].
    pose proof (_fix_nonswizzled_rc _ _ _ _ _ _ _ _ _ _ Hfix) as Hrc.
    pose proof (_fix_nonswizzled_consistent _ _ _ _ _ _ _ _ _ _ Hvol Hshpid Hcons1 Hfix)
      as Hcons'.
    destruct (is_error rc0) eqn:Herr.
    + intros [= <- <- <-]. cbn. split; [|split; [assumption|]].
      * destruct Hrc as [->|[->|[->| ->]]]; discriminate.
      * intros ->. discriminate.
    + destruct rc0; [|discriminate]. intros [= <- <- <-]. cbn.
      split; [discriminate|]. split; [assumption|]. intros _.
      split; [reflexivity|].
      now apply (_fix_nonswizzled_ok _ _ _ _ _ _ _ _ _ Hvol Hshpid Hcons1 Hfix).
Qed.

Lemma fix_direct_checks_swizzle_bit_witness :
  let h := {| _pp := None; _mode := LATCH_NL; _Q_ticket := 0 |} in
  let s := sample_sm quiet_pool in
  (fix_direct 1 swizzled_child LATCH_SH false false h s
   = Some (RC eBF_DIRECTFIX_SWIZZLED_PTR, (unfix h s).1, (unfix h s).2)
   /\ _mode (unfix h s).1 = LATCH_NL)
  /\ (exists h' s',
        fix_direct 1 12 LATCH_SH false false h s = Some (RCOK, h', s')
        /\ _mode h' = LATCH_SH
        /\ exists idx cb,
             _pp h' = Some idx
             /\ bf_tree_m._control_blocks (bf s') !! idx = Some cb
             /\ _pid_vol cb = 1 /\ _pid_shpid cb = 12).
Proof.
  intros h s. split.
  - destruct (fix_direct_checks_swizzle_bit 1 swizzled_child LATCH_SH false false h s)
      as (_ & Hswizzled & _);
      [uint32_by_computation ..| apply sample_pool_consistent |].
    apply Hswizzled; [discriminate | reflexivity].
  - destruct (fix_direct_checks_swizzle_bit 1 12 LATCH_SH false false h s)
      as (_ & _ & Hplain);
      [uint32_by_computation ..| apply sample_pool_consistent |].
    destruct (fix_direct 1 12 LATCH_SH false false h s) as [[[rc h'] s']|] eqn:Hfix;
      [|discriminate].
    destruct rc; [|discriminate].
    exists h', s'. split; [reflexivity|].
    destruct (Hplain ltac:(discriminate) eq_refl) as [_ Hplain'].
    destruct (Hplain' RCOK h' s' eq_refl) as (_ & _ & Hok).
    exact (Hok eq_refl).
Defined.

(** C3 as stated fails for a request in Q mode: the swizzled pointer is
    answered with [eLATCHQFAIL], not with [eBF_DIRECTFIX_SWIZZLED_PTR]. *)
Lemma fix_direct_Q_on_swizzled_pointer :
  let h := {| _pp := None; _mode := LATCH_NL; _Q_ticket := 0 |} in
  let s := sample_sm quiet_pool in
  is_swizzled_pointer swizzled_child = true
  /\ fix_direct 1 swizzled_child LATCH_Q false false h s = Some (RC eLATCHQFAIL, h, s)
  /\ fix_direct 1 swizzled_child LATCH_Q false false h s
     <> Some (RC eBF_DIRECTFIX_SWIZZLED_PTR, h, s).
Proof. split; [reflexivity|]. split; [reflexivity | discriminate]. Qed.

End FixDirect.

(** * Further properties of the code *)

(** ** log_carray.h: a slot joined several times *)

Section CarrayGroups.

Import ConsolidationArray.

Lemma wrap_int64_idemp z : wrap_int64 (wrap_int64 z) = wrap_int64 z.
Proof.
  rewrite <- (Z.add_0_r (wrap_int64 z)) at 1.
  rewrite wrap_int64_add_l. now rewrite Z.add_0_r.
Qed.

Lemma wrap_int64_mod16 z : wrap_int64 z mod 2 ^ 16 = z mod 2 ^ 16.
Proof.
  unfold wrap_int64.
  pose proof (Z.div_mod (z + 2 ^ 63) (2 ^ 64) ltac:(lia)) as Hdm.
  replace ((z + 2 ^ 63) mod 2 ^ 64 - 2 ^ 63)
    with (z + (- ((z + 2 ^ 63) / 2 ^ 64) * 2 ^ 48) * 2 ^ 16) by lia.
  apply Z.mod_add. lia.
Qed.

Lemma total_size_cons x sizes : total_size (x :: sizes) = x + total_size sizes.
Proof. reflexivity. Qed.

Lemma total_size_app sizes more :
  total_size (sizes ++ more) = total_size sizes + total_size more.
Proof.
  induction sizes as [|x sizes IH]; [reflexivity|].
  rewrite <- app_comm_cons, !total_size_cons, IH. lia.
Qed.

Lemma total_size_nonneg sizes :
  Forall (fun z => 0 <= z) sizes -> 0 <= total_size sizes.
Proof.
  induction 1 as [|x sizes Hx _ IH]; [reflexivity|].
  rewrite total_size_cons. lia.
Qed.

Lemma join_each_cons x sizes status :
  join_each (x :: sizes) status = join_each sizes (join_carray_status status x).
Proof. reflexivity. Qed.

(** Two joins commute, wrapped or not: the status of a slot does not
    tell in which order its members arrived. *)
Lemma join_carray_status_comm status a b :
  join_carray_status (join_carray_status status a) b
  = join_carray_status (join_carray_status status b) a.
Proof.
  rewrite !join_carray_status_wrap.
  rewrite <- !Z.add_assoc, !wrap_int64_add_l. f_equal. lia.
Qed.

Lemma join_each_exact sizes : forall status,
  0 <= status -> Forall (fun z => 0 <= z) sizes ->
  status + total_size sizes + Z.of_nat (length sizes) * 2 ^ 32 <= INT64_MAX ->
  join_each sizes status
  = status + total_size sizes + Z.of_nat (length sizes) * 2 ^ 32.
Proof.
  induction sizes as [|x sizes IH]; intros status Hs Hall Hfit.
  - cbn. lia.
  - apply Forall_cons in Hall as [Hx Hall].
    pose proof (total_size_nonneg sizes Hall) as Hsum.
    rewrite total_size_cons in Hfit |- *.
    cbn [length] in Hfit |- *.
    rewrite Nat2Z.inj_succ in Hfit |- *.
    rewrite join_each_cons.
    rewrite (join_carray_status_exact status x) by lia.
    rewrite IH by (try assumption; lia). lia.
Qed.

Lemma join_each_mod16 sizes : forall status,
  join_each sizes status mod 2 ^ 16 = (status + total_size sizes) mod 2 ^ 16.
Proof.
  induction sizes as [|x sizes IH]; intros status.
  - cbn. now rewrite Z.add_0_r.
  - rewrite join_each_cons, IH, total_size_cons.
    rewrite Zplus_mod, join_carray_status_wrap, wrap_int64_mod16.
    rewrite <- Zplus_mod.
    replace (status + x + 2 ^ 32 + total_size sizes)
      with (status + (x + total_size sizes) + 2 ^ 16 * 2 ^ 16) by lia.
    apply Z.mod_add. lia.
Qed.

(** X1.  A slot that starts at [SLOT_AVAILABLE] and is joined once for
    each of the log sizes of a group, none of them negative, ends with
    the status [n * 2^32 + total], as long as that still is an
    [int64_t]; if the total stays below [2^32], the high half of the
    status is the number of members and the low half is the total of
    their log sizes. *)
Theorem join_each_counts_members sizes :
  Forall (fun z => 0 <= z) sizes ->
  total_size sizes + Z.of_nat (length sizes) * 2 ^ 32 <= INT64_MAX ->
  join_each sizes SLOT_AVAILABLE
  = Z.of_nat (length sizes) * 2 ^ 32 + total_size sizes
  /\ (total_size sizes < 2 ^ 32 ->
      status_thread_count (join_each sizes SLOT_AVAILABLE) = Z.of_nat (length sizes)
      /\ status_total_bytes (join_each sizes SLOT_AVAILABLE) = total_size sizes).
Proof.
  intros Hall Hfit. unfold SLOT_AVAILABLE.
  pose proof (total_size_nonneg sizes Hall) as Hsum.
  rewrite join_each_exact by (try assumption; lia).
  split; [lia|]. intros Hlow.
  unfold status_thread_count, status_total_bytes.
  rewrite Z.land_ones, Z.shiftr_div_pow2 by lia. split.
  - symmetry. apply (Z.div_unique _ _ _ (total_size sizes)); lia.
  - symmetry. apply (Z.mod_unique _ _ (Z.of_nat (length sizes))); lia.
Qed.

Lemma join_each_counts_members_witness :
  join_each [120; 48; 4000] SLOT_AVAILABLE = 3 * 2 ^ 32 + 4168
  /\ (total_size [120; 48; 4000] < 2 ^ 32 ->
      status_thread_count (join_each [120; 48; 4000] SLOT_AVAILABLE) = 3
      /\ status_total_bytes (join_each [120; 48; 4000] SLOT_AVAILABLE) = 4168).
Proof.
  apply (join_each_counts_members [120; 48; 4000]).
  - repeat constructor; lia.
  - vm_compute. discriminate.
Defined.

(** X2.  The status of a slot after a group has joined does not depend
    on the order in which the members joined; this holds for every
    start status and all sizes, overflow included. *)
Theorem join_each_order_free sizes sizes' status :
  sizes ≡ₚ sizes' -> join_each sizes status = join_each sizes' status.
Proof.
  intros Hperm. revert status.
  induction Hperm as [|x l l' _ IH|x y l|l l' l'' _ IH1 _ IH2]; intros status.
  - reflexivity.
  - rewrite !join_each_cons. apply IH.
  - rewrite !join_each_cons. now rewrite join_carray_status_comm.
  - now rewrite IH1.
Qed.

Lemma join_each_order_free_witness :
  join_each [4000; 120; 48] 0 = join_each [120; 4000; 48] 0.
Proof.
  apply (join_each_order_free [4000; 120; 48] [120; 4000; 48] 0).
  apply perm_swap.
Defined.

(** X3.  What [extract_carray_log_size] reads from the status of a
    joined slot is the byte total of the group modulo [2^16]: it is the
    total itself for every group whose log sizes add up to less than
    65536 bytes, however many members the group has. *)
Theorem extract_after_joins sizes :
  0 <= total_size sizes < 2 ^ 16 ->
  extract_carray_log_size (join_each sizes SLOT_AVAILABLE) = total_size sizes
  /\ forall more, extract_carray_log_size (join_each (sizes ++ more) SLOT_AVAILABLE)
                  = (total_size sizes + total_size more) mod 2 ^ 16.
Proof.
  intros Hsmall. unfold SLOT_AVAILABLE. split.
  - rewrite extract_carray_log_size_low16, join_each_mod16.
    now apply Z.mod_small.
  - intros more. rewrite extract_carray_log_size_low16, join_each_mod16.
    f_equal. rewrite total_size_app. lia.
Qed.

Lemma extract_after_joins_witness :
  extract_carray_log_size (join_each [120; 48; 4000] SLOT_AVAILABLE) = 4168
  /\ forall more,
       extract_carray_log_size (join_each ([120; 48; 4000] ++ more) SLOT_AVAILABLE)
       = (total_size [120; 48; 4000] + total_size more) mod 2 ^ 16.
Proof.
  apply (extract_after_joins [120; 48; 4000]).
  vm_compute. split; [discriminate | reflexivity].
Defined.

End CarrayGroups.

(** ** bf_tree.h: reading keys and pointers back *)

Section KeysAndPointers.

(** X4.  For a volume id and a page id of 32 bits each, the key is a
    64-bit value whose high half is the volume id and whose low half is
    the page id, and keys are ordered as the pairs (volume id, page id)
    are: first by volume, then by page. *)
Theorem bf_key_halves_and_order vid shpid :
  is_uint32 vid -> is_uint32 shpid ->
  0 <= bf_key vid shpid < 2 ^ 64
  /\ Z.shiftr (bf_key vid shpid) 32 = vid
  /\ Z.land (bf_key vid shpid) (Z.ones 32) = shpid
  /\ (forall vid' shpid', is_uint32 vid' -> is_uint32 shpid' ->
        (bf_key vid shpid < bf_key vid' shpid'
         <-> vid < vid' \/ (vid = vid' /\ shpid < shpid'))).
Proof.
  intros Hv Hp. rewrite bf_key_sum by assumption.
  unfold is_uint32 in Hv, Hp.
  split; [lia|]. split; [|split].
  - rewrite Z.shiftr_div_pow2 by lia.
    symmetry. apply (Z.div_unique _ _ _ shpid); lia.
  - rewrite Z.land_ones by lia.
    symmetry. apply (Z.mod_unique _ _ vid); lia.
  - intros vid' shpid' Hv' Hp'. rewrite bf_key_sum by assumption.
    unfold is_uint32 in Hv', Hp'. lia.
Qed.

Lemma bf_key_halves_and_order_witness :
  0 <= bf_key 3 0x2A < 2 ^ 64
  /\ Z.shiftr (bf_key 3 0x2A) 32 = 3
  /\ Z.land (bf_key 3 0x2A) (Z.ones 32) = 0x2A
  /\ (forall vid' shpid', is_uint32 vid' -> is_uint32 shpid' ->
        (bf_key 3 0x2A < bf_key vid' shpid'
         <-> 3 < vid' \/ (3 = vid' /\ 0x2A < shpid'))).
Proof. apply (bf_key_halves_and_order 3 0x2A); unfold is_uint32; lia. Defined.

Lemma testbit_below_pow2 x n m : 0 <= x < 2 ^ n -> n <= m -> Z.testbit x m = false.
Proof.
  intros Hx Hnm. destruct (Z.eq_dec x 0) as [->|Hnz]; [apply Z.bits_0|].
  apply Z.bits_above_log2; [lia|].
  apply Z.lt_le_trans with n; [|assumption].
  apply Z.log2_lt_pow2; lia.
Qed.

(** X5.  With [SWIZZLED_PID_BIT] or-ed in, every 32-bit value is a
    swizzled pointer; with the bit flipped, the answer of
    [is_swizzled_pointer] flips.  A frame index below [2^31] is not a
    swizzled pointer itself, stays a 32-bit value when the bit is set,
    and comes back unchanged when the bit is flipped off again. *)
Theorem swizzle_bit_round_trip idx :
  0 <= idx < 2 ^ 31 ->
  is_swizzled_pointer idx = false
  /\ is_uint32 (Z.lor idx SWIZZLED_PID_BIT)
  /\ is_swizzled_pointer (Z.lor idx SWIZZLED_PID_BIT) = true
  /\ Z.lxor (Z.lor idx SWIZZLED_PID_BIT) SWIZZLED_PID_BIT = idx
  /\ (forall x, is_swizzled_pointer (Z.lor x SWIZZLED_PID_BIT) = true
                /\ is_swizzled_pointer (Z.lxor x SWIZZLED_PID_BIT)
                   = negb (is_swizzled_pointer x)).
Proof.
  intros Hidx. unfold SWIZZLED_PID_BIT. change 0x80000000 with (2 ^ 31).
  assert (Hdisjoint : Z.land idx (2 ^ 31) = 0).
  { apply Z.bits_inj'. intros n Hn.
    rewrite Z.land_spec, Z.bits_0, Z.pow2_bits_eqb by lia.
    destruct (Z.eqb_spec 31 n) as [<-|_]; [|apply andb_false_r].
    rewrite (testbit_below_pow2 idx 31 31) by lia. reflexivity. }
  assert (Hsum : Z.lor idx (2 ^ 31) = idx + 2 ^ 31).
  { rewrite <- Z.lxor_lor by assumption. symmetry.
    now apply Z.add_nocarry_lxor. }
  split; [|split; [|split; [|split]]].
  - change (2 ^ 31) with SWIZZLED_PID_BIT in Hdisjoint.
    unfold is_swizzled_pointer. now rewrite Hdisjoint.
  - unfold is_uint32. rewrite Hsum. lia.
  - fold SWIZZLED_PID_BIT.
    rewrite is_swizzled_pointer_testbit, Z.lor_spec. unfold SWIZZLED_PID_BIT.
    change 0x80000000 with (2 ^ 31).
    rewrite Z.pow2_bits_true by lia. apply orb_true_r.
  - rewrite <- Z.lxor_lor by assumption.
    now rewrite Z.lxor_assoc, Z.lxor_nilpotent, Z.lxor_0_r.
  - intros x. fold SWIZZLED_PID_BIT.
    rewrite !is_swizzled_pointer_testbit, Z.lor_spec, Z.lxor_spec.
    unfold SWIZZLED_PID_BIT. change 0x80000000 with (2 ^ 31).
    rewrite Z.pow2_bits_true by lia. split; [apply orb_true_r|].
    now destruct (Z.testbit x 31).
Qed.

Lemma swizzle_bit_round_trip_witness :
  is_swizzled_pointer 2 = false
  /\ is_uint32 (Z.lor 2 SWIZZLED_PID_BIT)
  /\ is_swizzled_pointer (Z.lor 2 SWIZZLED_PID_BIT) = true
  /\ Z.lxor (Z.lor 2 SWIZZLED_PID_BIT) SWIZZLED_PID_BIT = 2
  /\ (forall x, is_swizzled_pointer (Z.lor x SWIZZLED_PID_BIT) = true
                /\ is_swizzled_pointer (Z.lxor x SWIZZLED_PID_BIT)
                   = negb (is_swizzled_pointer x)).
Proof. apply (swizzle_bit_round_trip 2). lia. Defined.

End KeysAndPointers.

(** ** fixable_page_h.cpp: what a fix leaves behind *)

Section FixOutcomes.

Import fixable_page_h.





Lemma fix_nonroot_Q_parent_cases parent vol shpid mode conditional virgin_page h s rc h' s' :
  latch_mode parent = LATCH_Q ->
  fix_nonroot parent vol shpid mode conditional virgin_page h s = Some (rc, h', s') ->
  s' = (unfix h s).2
  /\ (rc = RCOK \/ rc = RC eLATCHQFAIL \/ rc = RC ePARENTLATCHQFAIL)
  /\ (rc = RCOK -> _mode h' = LATCH_Q)
  /\ (mode = LATCH_EX \/ (mode = LATCH_SH /\ force_Q_fixing s <= 1) -> rc <> RCOK).
Proof.
  intros Hparent. unfold fix_nonroot.
  destruct (unfix h s) as [h1 s1]. cbn.
  rewrite Hparent. rewrite (bool_decide_eq_true_2 (LATCH_Q = LATCH_Q)) by reflexivity.
  rewrite orb_true_r.
  set (mode' := if bool_decide (1 < force_Q_fixing s) && bool_decide (mode = LATCH_SH)
                then LATCH_Q else mode).
  assert (Hstrong : mode = LATCH_EX \/ (mode = LATCH_SH /\ force_Q_fixing s <= 1) ->
                    bool_decide (mode' = LATCH_Q) = false).
  { intros Hm. apply bool_decide_eq_false. subst mode'.
    destruct Hm as [->|[-> Hf]].
    - rewrite andb_false_r. discriminate.
    - rewrite (bool_decide_eq_false_2 (1 < force_Q_fixing s)) by lia. discriminate. }
  destruct (virgin_page || negb (is_swizzled_pointer shpid)).
  { intros [= <- <- <-]. repeat split; auto; intros; discriminate. }
  unfold bf_tree_m.fix_with_Q_nonroot.
  destruct (bf_tree_m._control_blocks (bf s1) !! _) as [cb|]; cbn; [|discriminate].
  destruct (bool_decide (mode' = LATCH_Q)) eqn:Hq; cbn.
  - unfold fix_nonroot_finish, change_possible_after_fix.
    rewrite Hparent. rewrite (bool_decide_eq_true_2 (LATCH_Q = LATCH_Q)) by reflexivity.
    intros [= <- <- <-]. cbn. apply bool_decide_eq_true in Hq.
    repeat split; auto. intros Hm. apply Hstrong in Hm. discriminate.
  - intros [= <- <- <-]. repeat split; auto; intros; discriminate.
Qed.

(** X7.  Under a parent that is latched in Q mode, [fix_nonroot] never
    calls into the buffer pool for a latch: the storage manager is as
    [unfix] left it.  [RCOK] comes with the handle in Q mode, so a
    request for SH (not forced to Q) or EX never succeeds under such a
    parent. *)
Theorem fix_nonroot_under_Q_parent parent vol shpid mode conditional virgin_page h s rc h' s' :
  latch_mode parent = LATCH_Q ->
  fix_nonroot parent vol shpid mode conditional virgin_page h s = Some (rc, h', s') ->
  s' = (unfix h s).2
  /\ (rc = RCOK -> _mode h' = LATCH_Q)
  /\ (mode = LATCH_EX \/ (mode = LATCH_SH /\ force_Q_fixing s <= 1) -> rc <> RCOK).
Proof.
  intros Hq Hfix.
  destruct (fix_nonroot_Q_parent_cases _ _ _ _ _ _ _ _ _ _ _ Hq Hfix) as (? & _ & ? & ?).
  auto.
Qed.

Lemma fix_nonroot_under_Q_parent_witness :
  let parent := {| _pp := Some 1%nat; _mode := LATCH_Q; _Q_ticket := 0 |} in
  let h := {| _pp := None; _mode := LATCH_NL; _Q_ticket := 0 |} in
  let s := sample_sm quiet_pool in
  fix_nonroot parent 1 swizzled_child LATCH_EX false false h s
  = Some (RC ePARENTLATCHQFAIL, h, s)
  /\ RC ePARENTLATCHQFAIL <> RCOK.
Proof.
  intros parent h s. split; [reflexivity|].
  destruct (fix_nonroot_under_Q_parent parent 1 swizzled_child LATCH_EX false false h s
              (RC ePARENTLATCHQFAIL) h s eq_refl eq_refl) as (_ & _ & Hstrong).
  apply Hstrong. now left.
Defined.



End FixOutcomes.

(** ** fixable_page_h.cpp: the log record comes before the flag *)

Section LogBeforeFlag.

Import fixable_page_h.

Lemma log_of_set_dirty h s : log (set_dirty h s) = log s.
Proof. unfold set_dirty. destruct (negb _); reflexivity. Qed.

Lemma log_of_update_page_flags f h s : log (update_page_flags f h s) = log s.
Proof. unfold update_page_flags. destruct (_pp h); reflexivity. Qed.

(** X9.  [set_to_be_deleted] changes nothing when it returns an error,
    and the only error is [eOUTOFLOGSPACE] under [log_it].  The flags
    word of the page changes only on [RCOK], and under [log_it] only
    together with exactly one log record for this page, appended to the
    log; without [log_it] the log is not written. *)
Theorem set_to_be_deleted_logs_first mask log_it h s rc s' :
  set_to_be_deleted mask log_it h s = Some (rc, s') ->
  (rc <> RCOK -> s' = s /\ log_it = true /\ rc = RC eOUTOFLOGSPACE)
  /\ (flags_at h s' <> flags_at h s ->
      rc = RCOK
      /\ (log_it = true -> log s' = log s ++ [t_page_set_to_be_deleted (_pp h)]))
  /\ (log_it = false -> log s' = log s).
Proof.
  unfold set_to_be_deleted.
  destruct (page_of h s) as [pg|]; cbn; [|discriminate].
  destruct (Z.land (page_flags pg) mask =? 0).
  - destruct log_it; cbn.
    + unfold log_page_set_to_be_deleted. destruct (log_space s) as [|room]; cbn.
      * intros [= <- <-]. split; [auto|]. split; [congruence | discriminate].
      * intros [= <- <-].
        split; [congruence|]. split; [|discriminate]. intros _.
        split; [reflexivity|]. intros _.
        now rewrite log_of_set_dirty, log_of_update_page_flags.
    + intros [= <- <-].
      split; [congruence|]. split; [intros _; split; [reflexivity | discriminate]|].
      intros _. now rewrite log_of_set_dirty, log_of_update_page_flags.
  - intros [= <- <-]. split; [congruence|]. split; [congruence | reflexivity].
Qed.

Lemma set_to_be_deleted_logs_first_witness :
  let h := {| _pp := Some 2%nat; _mode := LATCH_EX; _Q_ticket := 0 |} in
  let s := sample_sm (child_latched_pool 0) in
  exists s',
    set_to_be_deleted 1 true h s = Some (RCOK, s')
    /\ flags_at h s' <> flags_at h s
    /\ log s' = log s ++ [t_page_set_to_be_deleted (Some 2%nat)].
Proof.
  intros h s.
  destruct (set_to_be_deleted 1 true h s) as [[rc s']|] eqn:Hcall; [|discriminate].
  destruct rc; [|discriminate].
  exists s'. split; [reflexivity|].
  assert (Hchanged : flags_at h s' <> flags_at h s)
    by (vm_compute in Hcall; injection Hcall as <-; discriminate).
  split; [exact Hchanged|].
  destruct (set_to_be_deleted_logs_first 1 true h s RCOK s' Hcall) as (_ & Hflag & _).
  destruct (Hflag Hchanged) as [_ Hlog]. exact (Hlog eq_refl).
Defined.

End LogBeforeFlag.

(** ** bf_tree.h: pin_for_refix_holder *)

Section PinHolders.

Import pin_for_refix_holder.










End PinHolders.

(** ** xct.h: watermark, lock-free sections, forced rollback *)

Section Transactions.

Import xct_t.

Lemma update_read_watermark_max tag x :
  _read_watermark (update_read_watermark tag x) = Z.max (_read_watermark x) tag.
Proof.
  unfold update_read_watermark.
  destruct (Z.ltb_spec (_read_watermark x) tag); cbn; lia.
Qed.

(** X11.  After any series of [update_read_watermark] calls the read
    watermark is the largest of its old value and the tags given: it is
    at least the old value and at least every tag, and it is the old
    value or one of the tags.  Nothing else of the transaction
    changes. *)
Theorem read_watermark_is_high_water_mark tags x :
  let after := fold_left (fun x tag => update_read_watermark tag x) tags x in
  _read_watermark x <= _read_watermark after
  /\ Forall (fun tag => tag <= _read_watermark after) tags
  /\ (_read_watermark after = _read_watermark x
      \/ _read_watermark after ∈ tags)
  /\ (_sys_xct after = _sys_xct x
      /\ _single_log_sys_xct after = _single_log_sys_xct x
      /\ _piggy_backed_single_log_sys_xct after
         = _piggy_backed_single_log_sys_xct x
      /\ _query_concurrency after = _query_concurrency x
      /\ _query_exlock_for_select after = _query_exlock_for_select x).
Proof.
  cbv zeta. revert x. induction tags as [|tag tags IH]; intros x.
  - cbn. repeat split; auto; lia.
  - cbn [fold_left].
    destruct (IH (update_read_watermark tag x)) as (Hlow & Hall & Hwhich & Hrest).
    rewrite update_read_watermark_max in Hlow, Hwhich.
    split; [lia|]. split; [|split].
    + constructor; [lia | assumption].
    + destruct Hwhich as [Heq|Hin].
      * rewrite Heq. destruct (Z.max_spec (_read_watermark x) tag) as [[_ ->]|[_ ->]].
        -- right. apply elem_of_cons. now left.
        -- now left.
      * right. apply elem_of_cons. now right.
    + destruct Hrest as (H1 & H2 & H3 & H4 & H5).
      rewrite H1, H2, H3, H4, H5. unfold update_read_watermark.
      destruct (_read_watermark x <? tag); repeat split.
Qed.

Lemma leave_enter x :
  no_lock_section_t.leave (no_lock_section_t.enter x).1 (no_lock_section_t.enter x).2 = x.
Proof. destruct x as [[]|]; reflexivity. Qed.

Lemma enter_nested_keeps_no_lock depth : forall x,
  g_xct_does_need_lock x = false ->
  g_xct_does_need_lock (no_lock_section_t.enter_nested depth x).2 = false.
Proof.
  induction depth as [|depth IH]; intros x Hx; [exact Hx|].
  cbn [no_lock_section_t.enter_nested].
  destruct (no_lock_section_t.enter x) as [org_cc x1] eqn:Henter.
  specialize (IH x1).
  destruct (no_lock_section_t.enter_nested depth x1) as [inner x2]. cbn in IH |- *.
  apply IH. destruct x as [x|]; cbn in Henter; injection Henter as <- <-; [|reflexivity].
  cbn. unfold is_sys_xct in *. cbn. now destruct (_sys_xct x || _); auto.
Qed.

(** X12.  Inside one or more nested [no_lock_section_t] scopes
    [g_xct_does_need_lock()] answers [false], and when the scopes have
    ended, innermost first, the transaction of the thread is exactly
    what it was before the first of them began, its query concurrency
    included. *)
Theorem no_lock_sections_nest depth x :
  (0 < depth)%nat ->
  g_xct_does_need_lock (no_lock_section_t.enter_nested depth x).2 = false
  /\ no_lock_section_t.leave_nested (no_lock_section_t.enter_nested depth x).1
       (no_lock_section_t.enter_nested depth x).2 = x.
Proof.
  intros Hdepth. split.
  - destruct depth as [|depth]; [lia|].
    cbn [no_lock_section_t.enter_nested].
    destruct (no_lock_section_t.enter x) as [org_cc x1] eqn:Henter.
    pose proof (enter_nested_keeps_no_lock depth x1) as Hkeep.
    destruct (no_lock_section_t.enter_nested depth x1) as [inner x2]. cbn in Hkeep |- *.
    apply Hkeep. destruct x as [x|]; cbn in Henter; injection Henter as <- <-; [|reflexivity].
    cbn. now destruct (is_sys_xct _).
  - clear Hdepth. revert x. induction depth as [|depth IH]; intros x; [reflexivity|].
    cbn [no_lock_section_t.enter_nested].
    pose proof (leave_enter x) as Hone.
    destruct (no_lock_section_t.enter x) as [org_cc x1].
    specialize (IH x1).
    destruct (no_lock_section_t.enter_nested depth x1) as [inner x2].
    cbn in IH, Hone |- *. unfold no_lock_section_t.leave_nested in *.
    rewrite fold_left_app, IH. cbn. exact Hone.
Qed.

Lemma no_lock_sections_nest_witness :
  let x := Some {| _sys_xct := false; _single_log_sys_xct := false;
                   _piggy_backed_single_log_sys_xct := false;
                   _query_concurrency := t_cc_keyrange;
                   _query_exlock_for_select := false; _read_watermark := 0 |} in
  g_xct_does_need_lock x = true
  /\ g_xct_does_need_lock (no_lock_section_t.enter_nested 2 x).2 = false
  /\ no_lock_section_t.leave_nested (no_lock_section_t.enter_nested 2 x).1
       (no_lock_section_t.enter_nested 2 x).2 = x.
Proof.
  intros x. split; [reflexivity|].
  apply (no_lock_sections_nest 2 x). lia.
Defined.



End Transactions.

(** ** Root fixes and re-fixes *)

Section RootAndRefix.

Import fixable_page_h fixable_page_h_root.

Lemma latch_frame_page idx mode conditional page b page' b' :
  bf_tree_m.latch_frame idx mode conditional page b = Some (RCOK, page', b') ->
  page' = Some idx.
Proof.
  unfold bf_tree_m.latch_frame.
  destruct (bf_tree_m._control_blocks b !! idx) as [cb|]; cbn; [|discriminate].
  destruct (latch_acquire mode (_latch cb)); [now intros [= <- _]|].
  destruct conditional; discriminate.
Qed.

Lemma fix_root_cases roots vol store mode conditional h s rc h' s' :
  fix_root roots vol store mode conditional h s = Some (rc, h', s') ->
  let mode' := if bool_decide (0 < force_Q_fixing s) && bool_decide (mode = LATCH_SH)
               then LATCH_Q else mode in
  (rc <> RCOK -> _mode h' = LATCH_NL)
  /\ (rc = RCOK -> _pp h' = roots vol store /\ is_Some (_pp h') /\ _mode h' = mode')
  /\ (mode' = LATCH_Q -> rc = RCOK /\ s' = (unfix h s).2)
  /\ log s' = log s
  /\ force_Q_fixing s' = force_Q_fixing s.
Proof.
  unfold fix_root.
  set (mode' := if bool_decide (0 < force_Q_fixing s) && bool_decide (mode = LATCH_SH)
                then LATCH_Q else mode).
  pose proof (unfix_mode h s) as Hmode.
  pose proof (unfix_keeps_log h s) as (Hlog & _ & Hforce).
  destruct (unfix h s) as [h1 s1]. cbn in Hmode, Hlog, Hforce. cbn [snd].
  destruct (bool_decide (mode' = LATCH_Q)) eqn:Hq.
  - apply bool_decide_eq_true in Hq.
    unfold bf_fix_with_Q_root.
    destruct (roots vol store) as [idx|]; cbn; [|discriminate].
    destruct (bf_tree_m._control_blocks (bf s1) !! idx); cbn; [|discriminate].
    intros [= <- <- <-]. cbn. repeat split; eauto; congruence.
  - apply bool_decide_eq_false in Hq.
    unfold bf_fix_root.
    destruct (roots vol store) as [idx|]; cbn; [|discriminate].
    destruct (bf_tree_m.latch_frame idx mode' conditional (_pp h1) (bf s1))
      as [[[rc0 pp] b]|] eqn:Hbf; cbn; [|discriminate].
    destruct rc0 as [|e]; cbn.
    + apply latch_frame_page in Hbf. subst pp.
      intros [= <- <- <-]. cbn. repeat split; eauto; congruence.
    + intros [= <- <- <-]. cbn. repeat split; auto; try discriminate; congruence.
Qed.

(** X14.  An error of [fix_root] leaves the handle in mode [LATCH_NL];
    [RCOK] leaves it on the frame that the volume descriptor names for
    the store, in the mode asked for, with SH turned into Q as soon as
    [force_Q_fixing] is positive.  A fix in Q mode takes no latch: the
    storage manager is as [unfix] left it.  The log is not written. *)
Theorem fix_root_outcome roots vol store mode conditional h s rc h' s' :
  fix_root roots vol store mode conditional h s = Some (rc, h', s') ->
  let mode' := if bool_decide (0 < force_Q_fixing s) && bool_decide (mode = LATCH_SH)
               then LATCH_Q else mode in
  (rc <> RCOK -> _mode h' = LATCH_NL)
  /\ (rc = RCOK -> _pp h' = roots vol store /\ is_Some (_pp h') /\ _mode h' = mode')
  /\ (mode' = LATCH_Q -> s' = (unfix h s).2)
  /\ log s' = log s.
Proof.
  intros Hfix mode'. destruct (fix_root_cases _ _ _ _ _ _ _ _ _ _ Hfix) as (? & ? & Hq & ? & _).
  split; [auto|]. split; [auto|]. split; [|auto].
  intros Hm. now destruct (Hq Hm).
Qed.

Lemma fix_root_outcome_witness :
  let h := {| _pp := None; _mode := LATCH_NL; _Q_ticket := 0 |} in
  let s := sample_sm quiet_pool in
  exists h' s',
    fix_root sample_roots 1 1 LATCH_EX false h s = Some (RCOK, h', s')
    /\ _pp h' = Some 1%nat /\ _mode h' = LATCH_EX /\ log s' = log s.
Proof.
  intros h s.
  destruct (fix_root sample_roots 1 1 LATCH_EX false h s) as [[[rc h'] s']|] eqn:Hfix;
    [|discriminate].
  destruct rc; [|discriminate].
  exists h', s'. split; [reflexivity|].
  destruct (fix_root_outcome sample_roots 1 1 LATCH_EX false h s RCOK h' s' Hfix)
    as (_ & Hok & _ & Hlog).
  destruct (Hok eq_refl) as (Hpp & _ & Hmode). auto.
Defined.

(** X15.  The two thresholds on [force_Q_fixing] differ: [fix_root]
    turns SH into Q when it is above 0, [fix_nonroot] when it is above
    1.  So with [force_Q_fixing = 1] a root fixed for SH is held in Q
    mode, and no fix of a child for SH under that root ever returns
    [RCOK]. *)
Theorem force_Q_fixing_one_blocks_descent roots vol store conditional h s root s1 :
  force_Q_fixing s = 1 ->
  fix_root roots vol store LATCH_SH conditional h s = Some (RCOK, root, s1) ->
  _mode root = LATCH_Q
  /\ forall vol' shpid conditional' virgin_page child rc child' s2,
       fix_nonroot root vol' shpid LATCH_SH conditional' virgin_page child s1
       = Some (rc, child', s2) ->
       rc <> RCOK.
Proof.
  intros Hone Hfix.
  destruct (fix_root_cases _ _ _ _ _ _ _ _ _ _ Hfix) as (_ & Hok & _ & _ & Hforce).
  destruct (Hok eq_refl) as (_ & _ & Hmode).
  rewrite Hone in Hmode. change (_mode root = LATCH_Q) in Hmode.
  split; [exact Hmode|].
  intros vol' shpid conditional' virgin_page child rc child' s2 Hchild.
  destruct (fix_nonroot_Q_parent_cases _ _ _ _ _ _ _ _ _ _ _ Hmode Hchild)
    as (_ & _ & _ & Hstrong).
  apply Hstrong. right. split; [reflexivity|].
  destruct (unfix_keeps_log h s) as (_ & _ & Hu). lia.
Qed.

Lemma force_Q_fixing_one_blocks_descent_witness :
  let h := {| _pp := None; _mode := LATCH_NL; _Q_ticket := 0 |} in
  let s := {| bf := quiet_pool; log := []; log_space := 8%nat; force_Q_fixing := 1 |} in
  exists root s1,
    fix_root sample_roots 1 1 LATCH_SH false h s = Some (RCOK, root, s1)
    /\ _mode root = LATCH_Q
    /\ fix_nonroot root 1 swizzled_child LATCH_SH false false h s1
       = Some (RC ePARENTLATCHQFAIL, h, s1).
Proof.
  intros h s.
  destruct (fix_root sample_roots 1 1 LATCH_SH false h s) as [[[rc root] s1]|] eqn:Hfix;
    [|discriminate].
  destruct rc; [|discriminate].
  exists root, s1. split; [reflexivity|].
  destruct (force_Q_fixing_one_blocks_descent sample_roots 1 1 false h s root s1
              eq_refl Hfix) as (Hmode & _).
  split; [exact Hmode|].
  revert Hfix. vm_compute. intros [= <- <-]. reflexivity.
Defined.

(** X16.  [refix_direct] answers [eLATCHQFAIL] to every request in Q
    mode, without calling into the buffer pool.  Any error leaves the
    handle in mode [LATCH_NL]; [RCOK] leaves it on exactly the frame
    that was named, in the mode asked for.  The log is not written. *)
Theorem refix_direct_outcome idx mode conditional h s rc h' s' :
  refix_direct idx mode conditional h s = Some (rc, h', s') ->
  (mode = LATCH_Q -> rc = RC eLATCHQFAIL /\ s' = (unfix h s).2)
  /\ (rc <> RCOK -> _mode h' = LATCH_NL)
  /\ (rc = RCOK -> _pp h' = Some idx /\ _mode h' = mode)
  /\ log s' = log s.
Proof.
  unfold refix_direct.
  pose proof (unfix_mode h s) as Hmode.
  pose proof (unfix_keeps_log h s) as (Hlog & _).
  destruct (unfix h s) as [h1 s1]. cbn in Hmode, Hlog. cbn [snd].
  destruct (bool_decide (mode = LATCH_Q)) eqn:Hq.
  { intros [= <- <- <-]. repeat split; auto; discriminate. }
  apply bool_decide_eq_false in Hq.
  unfold bf_refix_direct.
  destruct (bf_tree_m.latch_frame idx mode conditional (_pp h1) (bf s1))
    as [[[rc0 pp] b]|] eqn:Hbf; cbn; [|discriminate].
  destruct rc0 as [|e]; cbn.
  - apply latch_frame_page in Hbf. subst pp.
    intros [= <- <- <-]. cbn. repeat split; auto; congruence.
  - intros [= <- <- <-]. cbn. repeat split; auto; try discriminate; congruence.
Qed.

Lemma refix_direct_outcome_witness :
  let h := {| _pp := None; _mode := LATCH_NL; _Q_ticket := 0 |} in
  let s := sample_sm quiet_pool in
  exists h' s',
    refix_direct 2 LATCH_SH false h s = Some (RCOK, h', s')
    /\ _pp h' = Some 2%nat /\ _mode h' = LATCH_SH /\ log s' = log s.
Proof.
  intros h s.
  destruct (refix_direct 2 LATCH_SH false h s) as [[[rc h'] s']|] eqn:Hfix;
    [|discriminate].
  destruct rc; [|discriminate].
  exists h', s'. split; [reflexivity|].
  destruct (refix_direct_outcome 2 LATCH_SH false h s RCOK h' s' Hfix)
    as (_ & _ & Hok & Hlog).
  destruct (Hok eq_refl) as (Hpp & Hmode'). auto.
Defined.

End RootAndRefix.
